(** * Kitex thriftgo plugin: the patcher

    A shallow embedding of [tool/internal/pkg/pluginmode/thriftgo/patcher.go]
    and the properties of its import filter, field reordering, envelope
    extraction and generation loop.

    Go strings are byte sequences and are modelled by [string]; Go maps by
    stdpp's [gmap]; a Go function returning [(T, error)] by a pair
    [T * option error], whose second component is [None] for a nil error. *)

From Stdlib Require Import String Ascii List Bool Arith Lia.
From stdpp Require Import base option list strings gmap fin_maps.
From stdpp Require Import sorting.

Local Open Scope string_scope.
Local Open Scope list_scope.

(** ** Errors *)

(** An error is either one returned by a collaborator (thriftgo's code
    utilities, the template engine, the file system) or the result of
    [fmt.Errorf(format, arg, err)] with one [%q] verb, filled by [arg], and one
    [%w] verb, wrapping [err]. *)
Inductive error : Type :=
| ExternalError (msg : string)
| Errorf (format : string) (arg : string) (wrapped : error).

(** The [%q] argument of the outermost [fmt.Errorf], when there is one. *)
Definition quoted_arg (e : error) : option string :=
  match e with
  | ExternalError _ => None
  | Errorf _ arg _ => Some arg
  end.

(** ** Package [strings] *)

Module strings.

(** [strings.HasPrefix(s, prefix)] *)
Definition HasPrefix (s prefix : string) : bool := String.prefix prefix s.

(** [strings.Contains(s, substr)] *)
Definition Contains (s substr : string) : bool :=
  match String.index 0 substr s with
  | Some _ => true
  | None => false
  end.

(** [strings.Join(elems, sep)] *)
Fixpoint Join (elems : list string) (sep : string) : string :=
  match elems with
  | [] => ""
  | e :: rest =>
      match rest with
      | [] => e
      | _ :: _ => e ++ sep ++ Join rest sep
      end
  end.

End strings.

(** ** Package [path/filepath]

    The Go standard library on a system whose separator is the slash and
    whose paths have no volume name.  [Clean] is described by its effect on
    the slash-separated elements of the path: empty and [.] elements are
    dropped, a [..] element removes the element before it, or is dropped at
    the root, or is kept at the start of a path that is not rooted. *)

Module filepath.

Definition isSlash (c : ascii) : bool := Ascii.eqb c "/".

(** The elements of a path: the strings between its slashes. *)
Fixpoint elements (path : string) : list string :=
  match path with
  | "" => [""]
  | String c rest =>
      if isSlash c then "" :: elements rest
      else match elements rest with
           | e :: es => String c e :: es
           | [] => [String c ""]
           end
  end.

(** [out] holds the elements written so far, the last one first. *)
Definition clean_element (rooted : bool) (out : list string) (e : string)
    : list string :=
  if String.eqb e "" || String.eqb e "." then out
  else if String.eqb e ".." then
    match out with
    | last :: out' => if String.eqb last ".." then e :: out else out'
    | [] => if rooted then [] else [e]
    end
  else e :: out.

(** A rooted path starts with a slash. *)
Definition rooted (path : string) : bool :=
  match path with
  | "" => false
  | String c _ => isSlash c
  end.

(** The elements [Clean] keeps, the last one first. *)
Definition kept (path : string) : list string :=
  fold_left (clean_element (rooted path)) (elements path) [].

(** The path made of the kept elements. *)
Definition render (is_rooted : bool) (out : list string) : string :=
  match rev out with
  | [] => if is_rooted then "/" else "."
  | l => (if is_rooted then "/" else "") ++ strings.Join l "/"
  end.

Definition Clean (path : string) : string :=
  match path with
  | "" => "."
  | _ => render (rooted path) (kept path)
  end.

(** An element that [Clean] keeps as it is: a name without a slash that is
    neither empty nor [.] nor [..]. *)
Definition regular (e : string) : Prop :=
  elements e = [e] /\ e <> "" /\ e <> "." /\ e <> "..".

(** What [kept] returns: regular elements on top of [..] elements, the
    latter only in a path that is not rooted. *)
Definition normal (r : bool) (out : list string) : Prop :=
  exists regs dots,
    out = regs ++ dots /\ Forall regular regs /\ Forall (fun e => e = "..") dots
    /\ (r = true -> dots = []).

(** [Split] cuts after the last slash: [(dir, file)]. *)
Fixpoint Split (path : string) : string * string :=
  match path with
  | "" => ("", "")
  | String c rest =>
      let '(dir, file) := Split rest in
      match dir with
      | "" => if isSlash c then (String c "", file) else ("", String c file)
      | _ => (String c dir, file)
      end
  end.

(** The path without its trailing slashes. *)
Fixpoint trimSlashes (path : string) : string :=
  match path with
  | "" => ""
  | String c rest =>
      match trimSlashes rest with
      | "" => if isSlash c then "" else String c ""
      | rest' => String c rest'
      end
  end.

Definition Base (path : string) : string :=
  match path with
  | "" => "."
  | _ => match snd (Split (trimSlashes path)) with
         | "" => "/"
         | file => file
         end
  end.

Definition Dir (path : string) : string := Clean (fst (Split path)).

Fixpoint Join (elem : list string) : string :=
  match elem with
  | [] => ""
  | e :: rest =>
      if String.eqb e "" then Join rest else Clean (strings.Join elem "/")
  end.

End filepath.

(** ** The parsed IDL (package [parser]) *)

Record Type_ : Type := mkType { Type_Name : string }.

Record Field : Type := mkField { Field_Name : string; Field_Type : Type_ }.

Record StructLike : Type :=
  mkStructLike { StructLike_Name : string; Fields : list Field }.

(** A document.  [GetNamespaceOrReferenceName] and [GetStructLike] are methods
    of [parser.Thrift]; the record holds what they return. *)
Record Thrift : Type := mkThrift {
  Filename : string;
  GetNamespaceOrReferenceName : string -> string;
  GetStructLike : list StructLike
}.

#[global] Instance Type_eq_dec : EqDecision Type_.
Proof. solve_decision. Defined.

#[global] Instance Type_countable : Countable Type_ :=
  inj_countable' Type_Name mkType (fun t => match t with mkType _ => eq_refl end).

#[global] Instance Field_eq_dec : EqDecision Field.
Proof. solve_decision. Defined.

#[global] Instance Field_countable : Countable Field :=
  inj_countable' (fun f => (Field_Name f, Field_Type f))
    (fun nt => mkField (fst nt) (snd nt))
    (fun f => match f with mkField _ _ => eq_refl end).

(** ** Collaborators *)

(** The methods of [golang.CodeUtils] the patcher calls.  [SetRootScope]
    followed by [ResolveImports()] is [ResolveImports] applied to the scope
    that was set. *)
Record CodeUtils (Scope : Type) : Type := mkCodeUtils {
  BuildScope : Thrift -> Scope * option error;
  NamespaceToPackage : string -> string;
  GetFilePath : Thrift -> string * option error;
  ResolveImports : Scope -> gmap string string * option error;
  IsFixedLengthType : Type_ -> bool * option error;
  IsBinaryType : Type_ -> bool * option error;
  IsStringType : Type_ -> bool * option error;
  Unexport : string -> string * option error
}.

Arguments mkCodeUtils {Scope}.
Arguments BuildScope {Scope}.
Arguments NamespaceToPackage {Scope}.
Arguments GetFilePath {Scope}.
Arguments ResolveImports {Scope}.
Arguments IsFixedLengthType {Scope}.
Arguments IsBinaryType {Scope}.
Arguments IsStringType {Scope}.
Arguments Unexport {Scope}.

(** [golang.Data], the value the file template is executed on. *)
Record Data : Type := mkData {
  Data_AST : Thrift;
  PkgName : string;
  Imports : gmap string string
}.

(** [fileTpl] is the execution of the template named "file": the text it
    writes to the buffer and its error. *)
Record patcher (Scope : Type) : Type := mkPatcher {
  noFastAPI : bool;
  utils : CodeUtils Scope;
  module : string;
  copyIDL : bool;
  fileTpl : Data -> string * option error
}.

Arguments mkPatcher {Scope}.
Arguments noFastAPI {Scope}.
Arguments utils {Scope}.
Arguments module {Scope}.
Arguments copyIDL {Scope}.
Arguments fileTpl {Scope}.

(** [plugin.Request]: the documents [req.AST.DepthFirstSearch()] yields, in
    that order, and the output path. *)
Record Request : Type := mkRequest {
  DepthFirstSearch : list Thrift;
  OutputPath : string
}.

(** [plugin.Generated].  [Name] points to a variable declared in the loop
    body, fresh at every iteration, so the model stores the string. *)
Record Generated : Type := mkGenerated { Content : string; Name : string }.

(** ** The type-name table *)

Definition typeIDToGoType : gmap string string :=
  <["Binary" := "[]byte"]>
  (<["String" := "string"]>
  (<["Double" := "float64"]>
  (<["I64" := "int64"]>
  (<["I32" := "int32"]>
  (<["I16" := "int16"]>
  (<["Byte" := "int8"]>
  (<["Bool" := "bool"]> ∅))))))).

(** Reading a missing key of a Go [map[string]string] gives the zero value,
    the empty string. *)
Definition map_index (m : gmap string string) (k : string) : string :=
  default "" (m !! k).

(** The template helper [TypeIDToGoType] of [buildTemplates]. *)
Definition TypeIDToGoType (t : string) : string := map_index typeIDToGoType t.

(** ** The import filter *)

Definition thriftLibPath : string := "github.com/apache/thrift/lib/go/thrift".
Definition thriftgoPrefix : string := "github.com/cloudwego/thriftgo".

(** One iteration of the [range] loop of [filterStdLib] at key [pth]. *)
Definition filterStdLib_body (prefix : string) (imports : gmap string string)
    (pth : string) : gmap string string :=
  if strings.HasPrefix pth prefix then imports
  else
    let imports1 :=
      if String.eqb pth thriftLibPath then delete pth imports else imports in
    let imports2 :=
      if strings.HasPrefix pth thriftgoPrefix then delete pth imports1
      else imports1 in
    if negb (strings.Contains pth ".") then delete pth imports2 else imports2.

(** The loop over the keys in the order [keys].  The body deletes no key but
    the current one, so Go's [range] visits every key the map had at the start
    once, in an order it does not specify. *)
Definition filterStdLib_range (prefix : string) (keys : list string)
    (imports : gmap string string) : gmap string string :=
  fold_left (filterStdLib_body prefix) keys imports.

(** [filterStdLib], with the patcher's [module] field as first argument.  The
    Go function updates the map in place; the model returns the updated map. *)
Definition filterStdLib (module : string) (imports : gmap string string)
    : gmap string string :=
  filterStdLib_range (module ++ "/") (map fst (map_to_list imports)) imports.

(** The entries the loop body leaves in the map. *)
Definition survives (prefix pth : string) : bool :=
  strings.HasPrefix pth prefix
  || (negb (String.eqb pth thriftLibPath)
      && negb (strings.HasPrefix pth thriftgoPrefix)
      && strings.Contains pth ".").

Definition sample_imports : gmap string string :=
  <["std/strings" := ""]>
  (<["example.com/mod/gen" := "gen"]>
  (<["github.com/apache/thrift/lib/go/thrift" := ""]> ∅)).

(** ** Field reordering *)

Section Patcher.

Context {Scope : Type}.

(** The first loop of [reorderStructFields]: it returns at the first field
    the classifier fails on. *)
Fixpoint classify_fields (cu : CodeUtils Scope) (fields : list Field)
    (fixedLengthFields : gmap Field bool) : gmap Field bool * option error :=
  match fields with
  | [] => (fixedLengthFields, None)
  | field :: rest =>
      let '(ok, err) := IsFixedLengthType cu (Field_Type field) in
      match err with
      | Some err => (fixedLengthFields, Some err)
      | None => classify_fields cu rest (<[field := ok]> fixedLengthFields)
      end
  end.

(** [fixedLengthFields[v]]: false for a missing key. *)
Definition fixed_index (fixedLengthFields : gmap Field bool) (v : Field) : bool :=
  default false (fixedLengthFields !! v).

(** The Go map is keyed by the field's address.  The classifier reads the
    field's type only, so fields that are equal as values are classified
    alike and the model keys the map by the value.  Both the nil slice of
    the error return and the empty slice are the empty list. *)
Definition reorderStructFields (p : patcher Scope) (fields : list Field)
    : list Field * option error :=
  match classify_fields (utils p) fields ∅ with
  | (_, Some err) => ([], Some err)
  | (fixedLengthFields, None) =>
      let sortedFields :=
        fold_left (fun sortedFields v =>
                     if fixed_index fixedLengthFields v
                     then sortedFields ++ [v] else sortedFields)
                  fields [] in
      let sortedFields :=
        fold_left (fun sortedFields v =>
                     if negb (fixed_index fixedLengthFields v)
                     then sortedFields ++ [v] else sortedFields)
                  fields sortedFields in
      (sortedFields, None)
  end.

(** The class the external predicate gives a field, and whether the
    predicate answered without an error. *)
Definition fixed_width (p : patcher Scope) (f : Field) : bool :=
  fst (IsFixedLengthType (utils p) (Field_Type f)).

Definition classified (p : patcher Scope) (f : Field) : Prop :=
  snd (IsFixedLengthType (utils p) (Field_Type f)) = None.

(** ** Envelope extraction *)

(** The anonymous struct [filterBase] returns. *)
Record Envelopes : Type := mkEnvelopes {
  Requests : list StructLike;
  Responses : list StructLike
}.

(** The body of the inner loop, on the pair [(req, res)]. *)
Definition filterBase_field (cu : CodeUtils Scope) (s : StructLike)
    (acc : list StructLike * list StructLike) (f : Field)
    : list StructLike * list StructLike :=
  let '(req, res) := acc in
  let '(fn, _) := Unexport cu (Field_Name f) in
  let tn := Type_Name (Field_Type f) in
  let req :=
    if String.eqb fn "base" && String.eqb tn "base.Base"
    then req ++ [s] else req in
  let res :=
    if String.eqb fn "baseResp" && String.eqb tn "base.BaseResp"
    then res ++ [s] else res in
  (req, res).

Definition filterBase (p : patcher Scope) (ast : Thrift) : Envelopes :=
  let '(req, res) :=
    fold_left (fun acc s => fold_left (filterBase_field (utils p) s) (Fields s) acc)
              (GetStructLike ast) ([], []) in
  {| Requests := req; Responses := res |}.

(** The patcher [p] with the error of every [Unexport] call replaced by
    [err name]; the names returned are those of [p]. *)
Definition with_Unexport_error (p : patcher Scope)
    (err : string -> option error) : patcher Scope :=
  let cu := utils p in
  {| noFastAPI := noFastAPI p;
     utils := {| BuildScope := BuildScope cu;
                 NamespaceToPackage := NamespaceToPackage cu;
                 GetFilePath := GetFilePath cu;
                 ResolveImports := ResolveImports cu;
                 IsFixedLengthType := IsFixedLengthType cu;
                 IsBinaryType := IsBinaryType cu;
                 IsStringType := IsStringType cu;
                 Unexport := fun name => (fst (Unexport cu name), err name) |};
     module := module p;
     copyIDL := copyIDL p;
     fileTpl := fileTpl p |}.

(** [isBinaryOrStringType] *)
Definition isBinaryOrStringType (p : patcher Scope) (t : Type_)
    : bool * option error :=
  let '(ok, err) := IsBinaryType (utils p) t in
  if bool_decide (err <> None) || ok then (ok, err)
  else IsStringType (utils p) t.

End Patcher.

(** ** The generation loop *)

Definition kitexUnusedProtection : string :=
  String "010" "// KitexUnusedProtection is used to prevent 'imported and not used' error."
  ++ String "010" "var KitexUnusedProtection = struct{}{}"
  ++ String "010" "".

(** The three [append] statements of [patch]: the protection file of a
    directory, the patched file of a document, the copy of its IDL source. *)
Inductive UnitKind : Type := ProtectionUnit | DocumentUnit | CopyUnit.

(** Where a unit comes from: the statement that appended it and the output
    directory, [filepath.Dir(full)], of the document being processed.  The Go
    values carry no such mark; [patch] drops it. *)
Record Origin : Type := mkOrigin { kind : UnitKind; directory : string }.

(** The variables of [patch] that live across iterations. *)
Record LoopState : Type := mkLoopState {
  patches : list (Origin * Generated);
  protection : gmap string Generated
}.

Definition append_patch (st : LoopState) (o : Origin) (g : Generated)
    : LoopState :=
  {| patches := patches st ++ [(o, g)]; protection := protection st |}.

(** [v, err := call; if err != nil { return nil, wrap(err) }]: the loop stops
    with the wrapped error, [st] being what had been accumulated. *)
Definition or_return {A : Type} (st : LoopState) (call : A * option error)
    (wrap : error -> error) (continue : A -> LoopState * option error)
    : LoopState * option error :=
  match snd call with
  | Some err => (st, Some (wrap err))
  | None => continue (fst call)
  end.

Section Patch.

Context {Scope : Type}.

(** [ioutil.ReadFile] *)
Variable ReadFile : string -> string * option error.

Variable p : patcher Scope.
Variable req : Request.

(** The body of the loop of [patch] for the document [ast]. *)
Definition patch_document (st : LoopState) (ast : Thrift)
    : LoopState * option error :=
  or_return st (BuildScope (utils p) ast)
      (Errorf "build scope for ast %q: %w" (Filename ast)) (fun scope =>
  let namespace := GetNamespaceOrReferenceName ast "go" in
  let pkgName := NamespaceToPackage (utils p) namespace in
  or_return st (GetFilePath (utils p) ast) (fun err => err) (fun path =>
  let full := filepath.Join [OutputPath req; path] in
  let '(dir, base) := filepath.Split full in
  let target := filepath.Join [dir; "k-" +:+ base] in
  let consts := filepath.Join [filepath.Dir full; "k-consts.go"] in
  let st :=
    match protection st !! consts with
    | None =>
        let patch := {| Content := "package " +:+ pkgName +:+ String "010" ""
                                     +:+ kitexUnusedProtection;
                        Name := consts |} in
        {| patches := patches st
                        ++ [(mkOrigin ProtectionUnit (filepath.Dir full), patch)];
           protection := <[consts := patch]> (protection st) |}
    | Some _ => st
    end in
  or_return st (ResolveImports (utils p) scope)
      (Errorf "resolve imports failed for %q: %w" (Filename ast)) (fun imports =>
  let data := {| Data_AST := ast; PkgName := pkgName;
                 Imports := filterStdLib (module p) imports |} in
  or_return st (fileTpl p data) (Errorf "%q: %w" (Filename ast)) (fun buf =>
  let st := append_patch st (mkOrigin DocumentUnit (filepath.Dir full))
              {| Content := buf; Name := target |} in
  if copyIDL p then
    or_return st (ReadFile (Filename ast)) (Errorf "read %q: %w" (Filename ast))
        (fun content =>
    let path := filepath.Join [filepath.Dir full;
                               filepath.Base (Filename ast)] in
    (append_patch st (mkOrigin CopyUnit (filepath.Dir full))
       {| Content := content; Name := path |}, None))
  else (st, None))))).

(** The loop over the documents, left at the first error. *)
Fixpoint patch_range (docs : list Thrift) (st : LoopState)
    : LoopState * option error :=
  match docs with
  | [] => (st, None)
  | ast :: docs' =>
      match patch_document st ast with
      | (st', None) => patch_range docs' st'
      | (st', Some err) => (st', Some err)
      end
  end.

(** The loop from its initial state: what it had appended when it ended,
    and the error that ended it, if any. *)
Definition patch_run : LoopState * option error :=
  patch_range (DepthFirstSearch req) {| patches := []; protection := ∅ |}.

(** [patch]: the accumulated units on success, [nil] and the error
    otherwise. *)
Definition patch : list Generated * option error :=
  match patch_run with
  | (st, None) => (map snd (patches st), None)
  | (_, Some err) => ([], Some err)
  end.

(** The two file names [patch] derives from the path of a document. *)
Definition target_path (path : string) : string :=
  let full := filepath.Join [OutputPath req; path] in
  let '(dir, base) := filepath.Split full in
  filepath.Join [dir; "k-" +:+ base].

Definition consts_path (path : string) : string :=
  let full := filepath.Join [OutputPath req; path] in
  filepath.Join [filepath.Dir full; "k-consts.go"].

End Patch.

(** The protection unit of the directory [dir] for the package [pkgName], as
    [patch] builds it. *)
Definition protection_unit (dir pkgName : string) : Origin * Generated :=
  (mkOrigin ProtectionUnit dir,
   {| Content := "package " +:+ pkgName +:+ String "010" ""
                   +:+ kitexUnusedProtection;
      Name := filepath.Join [dir; "k-consts.go"] |}).

(** The effect of the guarded [append] of [patch] on the loop state: the
    protection unit of [dir] is added unless its path is registered. *)
Definition protect (st : LoopState) (dir pkgName : string) : LoopState :=
  match protection st !! filepath.Join [dir; "k-consts.go"] with
  | None =>
      {| patches := patches st ++ [protection_unit dir pkgName];
         protection := <[filepath.Join [dir; "k-consts.go"]
                           := snd (protection_unit dir pkgName)]> (protection st) |}
  | Some _ => st
  end.

(** The list [units] holds one protection unit for [dir]; the units before it
    come from other directories and no unit after it is a protection unit for
    [dir]. *)
Definition protected_once (dir : string) (units : list (Origin * Generated))
    : Prop :=
  exists l1 pkgName l2,
    units = l1 ++ protection_unit dir pkgName :: l2
    /\ (forall v, In v l1 -> directory (fst v) <> dir)
    /\ (forall v, In v l2 -> directory (fst v) = dir ->
                  kind (fst v) <> ProtectionUnit).

(** What the loop of [patch] maintains: the directory of every unit is a
    cleaned path registered in [protection], and every registered directory
    has its protection unit once. *)
Definition loop_invariant (st : LoopState) : Prop :=
  (forall u, In u (patches st) ->
     exists d, directory (fst u) = filepath.Clean d
               /\ is_Some (protection st
                             !! filepath.Join [filepath.Clean d; "k-consts.go"]))
  /\ (forall d, is_Some (protection st
                           !! filepath.Join [filepath.Clean d; "k-consts.go"]) ->
                protected_once (filepath.Clean d) (patches st)).

(** ** A sample configuration

    Concrete collaborators and documents on which the operations are run. *)

Definition sample_IsFixedLengthType (t : Type_) : bool * option error :=
  if String.eqb (Type_Name t) "cyclic"
  then (false, Some (ExternalError "type cycle"))
  else (bool_decide (Type_Name t ∈ ["bool"; "byte"; "i16"; "i32"; "i64"; "double"]),
        None).

(** Lower-case the first letter; names that start with an underscore are
    returned unchanged together with an error. *)
Definition sample_Unexport (name : string) : string * option error :=
  match name with
  | "" => ("", None)
  | String c rest =>
      let n := nat_of_ascii c in
      if Nat.leb 65 n && Nat.leb n 90 then (String (ascii_of_nat (n + 32)) rest, None)
      else if Ascii.eqb c "_" then (name, Some (ExternalError "leading underscore"))
      else (name, None)
  end.

Definition sample_GetFilePath (ast : Thrift) : string * option error :=
  if String.eqb (Filename ast) "a.thrift" then ("pkg/a.go", None)
  else if String.eqb (Filename ast) "b.thrift" then ("pkg/b.go", None)
  else if String.eqb (Filename ast) "consts.thrift" then ("pkg/consts.go", None)
  else ("", Some (ExternalError "no file path")).

Definition sample_utils : CodeUtils unit :=
  {| BuildScope := fun _ => (tt, None);
     NamespaceToPackage := fun namespace => namespace;
     GetFilePath := sample_GetFilePath;
     ResolveImports := fun _ => (sample_imports, None);
     IsFixedLengthType := sample_IsFixedLengthType;
     IsBinaryType := fun t => (String.eqb (Type_Name t) "binary", None);
     IsStringType := fun t => (String.eqb (Type_Name t) "string", None);
     Unexport := sample_Unexport |}.

Definition sample_fileTpl (data : Data) : string * option error :=
  if String.eqb (PkgName data) ""
  then ("", Some (ExternalError "template: no package name"))
  else ("package " +:+ PkgName data, None).

Definition sample_patcher : patcher unit :=
  {| noFastAPI := false; utils := sample_utils; module := "example.com/mod";
     copyIDL := false; fileTpl := sample_fileTpl |}.

Definition sample_ReadFile (name : string) : string * option error :=
  ("", Some (ExternalError "file does not exist")).

Definition field_id : Field := mkField "id" (mkType "i64").
Definition field_name : Field := mkField "name" (mkType "string").
Definition field_active : Field := mkField "active" (mkType "bool").
Definition field_loop : Field := mkField "loop" (mkType "cyclic").

Definition struct_request : StructLike :=
  mkStructLike "Request"
    [mkField "Base" (mkType "base.Base"); mkField "base" (mkType "base.Base")].
Definition struct_response : StructLike :=
  mkStructLike "Response" [mkField "BaseResp" (mkType "base.BaseResp")].
Definition struct_other : StructLike :=
  mkStructLike "Other"
    [mkField "base" (mkType "base.BaseResp");
     mkField "database" (mkType "base.Base");
     mkField "BASE" (mkType "base.Base");
     mkField "Base" (mkType "mybase.Base");
     mkField "_base" (mkType "base.Base")].

Definition document (filename : string) (structs : list StructLike) : Thrift :=
  {| Filename := filename;
     GetNamespaceOrReferenceName := fun _ => "pkg";
     GetStructLike := structs |}.

Definition doc_a : Thrift :=
  document "a.thrift" [struct_request; struct_other; struct_response].
Definition doc_b : Thrift := document "b.thrift" [].
Definition doc_consts : Thrift := document "consts.thrift" [].
Definition doc_unknown : Thrift := document "unknown.thrift" [].
Definition doc_nopkg : Thrift :=
  {| Filename := "b.thrift";
     GetNamespaceOrReferenceName := fun _ => "";
     GetStructLike := [] |}.

Definition sample_request : Request := mkRequest [doc_a; doc_b] "/out".

Definition sample_source (name : string) : string * option error :=
  ("// copy of " +:+ name, None).

Definition sample_copy_patcher : patcher unit :=
  {| noFastAPI := false; utils := sample_utils; module := "example.com/mod";
     copyIDL := true; fileTpl := sample_fileTpl |}.

(** ** The other template helpers of [buildTemplates] *)

(** [GenerateFastAPIs] *)
Definition GenerateFastAPIs {Scope : Type} (p : patcher Scope) : bool :=
  negb (noFastAPI p).

(** Go orders strings byte by byte, a proper prefix first. *)
Definition string_le (a b : string) : Prop := String.leb a b = true.

#[global] Instance string_le_dec (a b : string) : Decision (string_le a b) :=
  decide (String.leb a b = true).

(** [sort.Strings]: the slice in increasing order.  Strings that compare
    equal are the same string, so the sorted slice does not depend on the
    sorting algorithm; the model merges. *)
Definition sort_Strings (x : list string) : list string :=
  merge_sort string_le x.

Section ToPackageNames.

(** [strings.ToLower] *)
Variable ToLower : string -> string.

(** The package name of one import: its alias, or the lower-cased base of its
    path when the alias is empty. *)
Definition package_name (entry : string * string) : string :=
  if negb (String.eqb (snd entry) "") then snd entry
  else ToLower (filepath.Base (fst entry)).

(** The body of the [range] loop of [ToPackageNames]. *)
Definition ToPackageNames_body (res : list string) (entry : string * string)
    : list string :=
  let '(pth, alias) := entry in
  if negb (String.eqb alias "") then res ++ [alias]
  else res ++ [ToLower (filepath.Base pth)].

(** The loop over the entries in the order [entries], then the sort. *)
Definition ToPackageNames_range (entries : list (string * string))
    : list string :=
  sort_Strings (fold_left ToPackageNames_body entries []).

(** [ToPackageNames]; Go visits the entries of the map in an order it does
    not specify. *)
Definition ToPackageNames (imports : gmap string string) : list string :=
  ToPackageNames_range (map_to_list imports).

End ToPackageNames.

(** ** The units of a run without error *)

Section Planned.

Context {Scope : Type}.
Variable ReadFile : string -> string * option error.
Variable p : patcher Scope.
Variable req : Request.

(** Every call [patch] makes for the document [ast] returns a nil error. *)
Definition document_ok (ast : Thrift) : Prop :=
  snd (BuildScope (utils p) ast) = None
  /\ snd (GetFilePath (utils p) ast) = None
  /\ snd (ResolveImports (utils p) (fst (BuildScope (utils p) ast))) = None
  /\ snd (fileTpl p
            {| Data_AST := ast;
               PkgName := NamespaceToPackage (utils p)
                            (GetNamespaceOrReferenceName ast "go");
               Imports := filterStdLib (module p)
                            (fst (ResolveImports (utils p)
                                    (fst (BuildScope (utils p) ast)))) |}) = None
  /\ (copyIDL p = true -> snd (ReadFile (Filename ast)) = None).

(** The output directory of a document and its package name. *)
Definition document_dir (ast : Thrift) : string :=
  filepath.Dir (filepath.Join [OutputPath req; fst (GetFilePath (utils p) ast)]).

Definition document_package (ast : Thrift) : string :=
  NamespaceToPackage (utils p) (GetNamespaceOrReferenceName ast "go").

(** The value the file template is executed on for [ast]. *)
Definition document_data (ast : Thrift) : Data :=
  {| Data_AST := ast;
     PkgName := document_package ast;
     Imports := filterStdLib (module p)
                  (fst (ResolveImports (utils p)
                          (fst (BuildScope (utils p) ast)))) |}.

(** The units a document adds of its own: the rendered file and, with
    [copyIDL], the copy of the source. *)
Definition document_units (ast : Thrift) : list (Origin * Generated) :=
  (mkOrigin DocumentUnit (document_dir ast),
   {| Content := fst (fileTpl p (document_data ast));
      Name := target_path req (fst (GetFilePath (utils p) ast)) |})
  :: (if copyIDL p
      then [(mkOrigin CopyUnit (document_dir ast),
             {| Content := fst (ReadFile (Filename ast));
                Name := filepath.Join [document_dir ast;
                                       filepath.Base (Filename ast)] |})]
      else []).

(** The units of the documents [docs], [seen] being the directories of the
    documents before them. *)
Fixpoint planned (seen : list string) (docs : list Thrift)
    : list (Origin * Generated) :=
  match docs with
  | [] => []
  | ast :: docs' =>
      (if bool_decide (document_dir ast ∈ seen) then []
       else [protection_unit (document_dir ast) (document_package ast)])
      ++ document_units ast
      ++ planned (document_dir ast :: seen) docs'
  end.

End Planned.

(** The registry holds the protection paths of the directories [seen]. *)
Definition registry_of (st : LoopState) (seen : list string) : Prop :=
  forall d,
    is_Some (protection st !! filepath.Join [filepath.Clean d; "k-consts.go"])
    <-> In (filepath.Clean d) seen.

Definition is_protection (u : Origin * Generated) : bool :=
  match kind (fst u) with
  | ProtectionUnit => true
  | _ => false
  end.

Fixpoint sample_ToLower (s : string) : string :=
  match s with
  | "" => ""
  | String c rest =>
      let n := nat_of_ascii c in
      String (if Nat.leb 65 n && Nat.leb n 90 then ascii_of_nat (n + 32) else c)
             (sample_ToLower rest)
  end.

(** * Properties *)

Section ImportFilter.

Variable prefix : string.

Lemma filterStdLib_body_same imports pth :
  filterStdLib_body prefix imports pth !! pth =
  if survives prefix pth then imports !! pth else None.
Proof.
  unfold filterStdLib_body, survives.
  destruct (strings.HasPrefix pth prefix); simpl; [done|].
  destruct (String.eqb pth thriftLibPath),
    (strings.HasPrefix pth thriftgoPrefix),
    (strings.Contains pth "."); simpl;
    rewrite ?lookup_delete_eq; done.
Qed.

Lemma filterStdLib_body_other imports pth k :
  k ≠ pth ->
  filterStdLib_body prefix imports pth !! k = imports !! k.
Proof.
  intros Hne. unfold filterStdLib_body.
  destruct (strings.HasPrefix pth prefix); [done|].
  destruct (String.eqb pth thriftLibPath),
    (strings.HasPrefix pth thriftgoPrefix),
    (strings.Contains pth "."); simpl;
    rewrite ?lookup_delete_ne by done; done.
Qed.

Lemma filterStdLib_body_lookup imports pth k :
  filterStdLib_body prefix imports pth !! k =
  if decide (k = pth)
  then (if survives prefix k then imports !! k else None)
  else imports !! k.
Proof.
  case_decide as Hk.
  - subst k. apply filterStdLib_body_same.
  - by apply filterStdLib_body_other.
Qed.

(** The result of the loop does not depend on the order of the keys, nor on
    a key being visited more than once. *)
Lemma filterStdLib_range_lookup keys imports k :
  filterStdLib_range prefix keys imports !! k =
  if decide (k ∈ keys)
  then (if survives prefix k then imports !! k else None)
  else imports !! k.
Proof.
  unfold filterStdLib_range. revert imports.
  induction keys as [|pth keys IH]; intros imports; cbn [fold_left].
  - rewrite decide_False; [done | apply not_elem_of_nil].
  - rewrite IH, filterStdLib_body_lookup.
    destruct (decide (k = pth)) as [->|Hne].
    + rewrite (decide_True (P := pth ∈ pth :: keys))
        by (apply elem_of_cons; auto).
      destruct (survives prefix pth); by case_decide.
    + destruct (decide (k ∈ keys)) as [Hin|Hin].
      * rewrite decide_True; [done | apply elem_of_cons; auto].
      * rewrite decide_False; [done|].
        intros [?|?]%elem_of_cons; done.
Qed.

End ImportFilter.

Lemma filterStdLib_lookup module imports pth :
  filterStdLib module imports !! pth =
  if survives (module ++ "/") pth then imports !! pth else None.
Proof.
  unfold filterStdLib. rewrite filterStdLib_range_lookup.
  case_decide as Hin; [done|].
  assert (imports !! pth = None) as ->; [|by destruct (survives _ _)].
  destruct (imports !! pth) as [alias|] eqn:Hl; [|done].
  exfalso. apply Hin, list_elem_of_fmap.
  exists (pth, alias). split; [done|].
  by apply elem_of_map_to_list.
Qed.

(** C1 (as amended).  [filterStdLib] keeps an entry exactly when its path
    starts with the module prefix [module ++ "/"], or when it is not the
    legacy thrift runtime path, does not start with the thriftgo prefix and
    contains a dot; kept entries keep their alias.  The sample mapping with
    module root "example.com/mod" filters to the single local-module entry. *)
Theorem filterStdLib_keeps_exactly :
  (forall module imports pth,
      filterStdLib module imports !! pth =
      if strings.HasPrefix pth (module ++ "/")
         || (negb (String.eqb pth "github.com/apache/thrift/lib/go/thrift")
             && negb (strings.HasPrefix pth "github.com/cloudwego/thriftgo")
             && strings.Contains pth ".")
      then imports !! pth else None)
  /\ filterStdLib "example.com/mod" sample_imports
     = {[ "example.com/mod/gen" := "gen" ]}.
Proof.
  split.
  - intros module imports pth. rewrite filterStdLib_lookup. reflexivity.
  - apply map_eq. intros k. rewrite filterStdLib_lookup.
    unfold sample_imports.
    destruct (decide (k = "example.com/mod/gen")) as [->|Hgen].
    { by vm_compute. }
    rewrite lookup_singleton_ne by done.
    destruct (survives _ k) eqn:Hs; [|done].
    destruct (decide (k = "std/strings")) as [->|Hstd].
    { by vm_compute in Hs. }
    destruct (decide (k = "github.com/apache/thrift/lib/go/thrift")) as [->|Hthr].
    { by vm_compute in Hs. }
    rewrite !lookup_insert_ne by done. by rewrite lookup_empty.
Qed.

(** C1 (as stated) fails: the local-module entry of the sample mapping is
    still there after the filter ran, so the result is not empty and holds a
    path that starts with the module root. *)
Lemma filterStdLib_sample_keeps_local_module :
  filterStdLib "example.com/mod" sample_imports !! "example.com/mod/gen"
    = Some "gen"
  /\ strings.HasPrefix "example.com/mod/gen" "example.com/mod" = true
  /\ strings.HasPrefix "example.com/mod/gen" ("example.com/mod" ++ "/") = true
  /\ filterStdLib "example.com/mod" sample_imports <> ∅.
Proof.
  assert (filterStdLib "example.com/mod" sample_imports !! "example.com/mod/gen"
          = Some "gen") as H.
  { rewrite filterStdLib_lookup. by vm_compute. }
  split; [exact H|]. split; [by vm_compute|]. split; [by vm_compute|].
  intros Hempty. rewrite Hempty, lookup_empty in H. discriminate H.
Qed.

(** C9.  [TypeIDToGoType] is total: the eight type IDs map to their Go
    names and every other string maps to the empty string. *)
Theorem TypeIDToGoType_table :
  TypeIDToGoType "Bool" = "bool"
  /\ TypeIDToGoType "Byte" = "int8"
  /\ TypeIDToGoType "I16" = "int16"
  /\ TypeIDToGoType "I32" = "int32"
  /\ TypeIDToGoType "I64" = "int64"
  /\ TypeIDToGoType "Double" = "float64"
  /\ TypeIDToGoType "String" = "string"
  /\ TypeIDToGoType "Binary" = "[]byte"
  /\ forall t : string,
      In t ["Bool"; "Byte"; "I16"; "I32"; "I64"; "Double"; "String"; "Binary"]
      \/ TypeIDToGoType t = "".
Proof.
  repeat (split; [by vm_compute|]).
  intros t. unfold TypeIDToGoType, map_index, typeIDToGoType.
  destruct (decide (t = "Bool")) as [->|?]; [left; simpl; tauto|].
  destruct (decide (t = "Byte")) as [->|?]; [left; simpl; tauto|].
  destruct (decide (t = "I16")) as [->|?]; [left; simpl; tauto|].
  destruct (decide (t = "I32")) as [->|?]; [left; simpl; tauto|].
  destruct (decide (t = "I64")) as [->|?]; [left; simpl; tauto|].
  destruct (decide (t = "Double")) as [->|?]; [left; simpl; tauto|].
  destruct (decide (t = "String")) as [->|?]; [left; simpl; tauto|].
  destruct (decide (t = "Binary")) as [->|?]; [left; simpl; tauto|].
  right. rewrite !lookup_insert_ne by done. by rewrite lookup_empty.
Qed.

Section Reorder.

Context {Scope : Type}.
Variable p : patcher Scope.

Lemma classify_fields_ok fields m :
  Forall (classified p) fields ->
  exists m',
    classify_fields (utils p) fields m = (m', None)
    /\ forall f, m' !! f = if decide (f ∈ fields) then Some (fixed_width p f)
                           else m !! f.
Proof.
  revert m. induction fields as [|g fields IH]; intros m Hall.
  - exists m. split; [done|]. intros f.
    rewrite decide_False; [done | apply not_elem_of_nil].
  - apply Forall_cons in Hall as [Hg Hall].
    destruct (IH (<[g := fixed_width p g]> m) Hall) as (m' & Hrun & Hm').
    exists m'. split.
    + cbn [classify_fields]. unfold classified in Hg. unfold fixed_width in Hrun.
      destruct (IsFixedLengthType (utils p) (Field_Type g)) as [ok err].
      simpl in Hg. subst err. exact Hrun.
    + intros f. rewrite Hm'.
      destruct (decide (f ∈ fields)) as [Hin|Hin].
      * rewrite decide_True; [done | apply elem_of_cons; auto].
      * destruct (decide (f = g)) as [->|Hne].
        -- rewrite lookup_insert_eq.
           rewrite decide_True; [done | apply elem_of_cons; auto].
        -- rewrite lookup_insert_ne by done.
           rewrite decide_False; [done|].
           intros [?|?]%elem_of_cons; done.
Qed.

Lemma classify_fields_error pre f post err m :
  Forall (classified p) pre ->
  snd (IsFixedLengthType (utils p) (Field_Type f)) = Some err ->
  snd (classify_fields (utils p) (pre ++ f :: post) m) = Some err.
Proof.
  revert m. induction pre as [|g pre IH]; intros m Hall Hf.
  - cbn [app classify_fields].
    destruct (IsFixedLengthType (utils p) (Field_Type f)) as [ok e].
    simpl in Hf. by subst e.
  - apply Forall_cons in Hall as [Hg Hall].
    cbn [app classify_fields]. unfold classified in Hg.
    destruct (IsFixedLengthType (utils p) (Field_Type g)) as [ok e].
    simpl in Hg. subst e. by apply IH.
Qed.

(** A loop that appends the elements passing a test is a filter. *)
Lemma append_loop_filter {A} (test : A -> bool) l acc :
  fold_left (fun acc v => if test v then acc ++ [v] else acc) l acc
  = acc ++ List.filter test l.
Proof.
  revert acc. induction l as [|x l IH]; intros acc; simpl.
  - by rewrite app_nil_r.
  - rewrite IH. destruct (test x); [|done].
    by rewrite <- app_assoc.
Qed.

Lemma filter_ext_elem {A} (f g : A -> bool) l :
  (forall x, x ∈ l -> f x = g x) -> List.filter f l = List.filter g l.
Proof.
  intros H. apply List.filter_ext_in. intros x Hx.
  apply H. by apply list_elem_of_In.
Qed.

Lemma reorderStructFields_ok fields :
  Forall (classified p) fields ->
  reorderStructFields p fields
  = (List.filter (fixed_width p) fields
       ++ List.filter (fun f => negb (fixed_width p f)) fields, None).
Proof.
  intros Hall. unfold reorderStructFields.
  destruct (classify_fields_ok fields ∅ Hall) as (m & -> & Hm).
  rewrite !append_loop_filter. cbn [app]. do 2 f_equal.
  - apply filter_ext_elem. intros f Hf. unfold fixed_index.
    rewrite Hm, decide_True by done. done.
  - apply filter_ext_elem. intros f Hf. unfold fixed_index.
    rewrite Hm, decide_True by done. done.
Qed.

Lemma filter_negb_filter {A} (f : A -> bool) l :
  List.filter f (List.filter (fun x => negb (f x)) l) = [].
Proof.
  induction l as [|x l IH]; [done|]. simpl.
  destruct (f x) eqn:Hx; simpl; [done|]. by rewrite Hx.
Qed.

Lemma filter_filter_negb {A} (f : A -> bool) l :
  List.filter (fun x => negb (f x)) (List.filter f l) = [].
Proof.
  induction l as [|x l IH]; [done|]. simpl.
  destruct (f x) eqn:Hx; simpl; [|done]. by rewrite Hx.
Qed.

Lemma filter_idem {A} (f : A -> bool) l :
  List.filter f (List.filter f l) = List.filter f l.
Proof.
  induction l as [|x l IH]; [done|]. simpl.
  destruct (f x) eqn:Hx; simpl; [|done]. by rewrite Hx, IH.
Qed.

Lemma classified_partition fields :
  Forall (classified p) fields ->
  Forall (classified p)
    (List.filter (fixed_width p) fields
       ++ List.filter (fun f => negb (fixed_width p f)) fields).
Proof.
  intros Hall. apply Forall_app. split; apply Forall_forall; intros f Hf;
    apply list_elem_of_In, List.filter_In in Hf as [Hf _];
    rewrite Forall_forall in Hall; apply Hall; by apply list_elem_of_In.
Qed.

(** C4.  When the classifier answers for every field, the result is the
    fixed-width fields in their original order followed by the
    variable-width fields in their original order, and no error. *)
Theorem reorderStructFields_stable_partition (fields : list Field) :
  Forall (fun f => snd (IsFixedLengthType (utils p) (Field_Type f)) = None)
         fields ->
  reorderStructFields p fields
  = (List.filter (fun f => fst (IsFixedLengthType (utils p) (Field_Type f)))
                 fields
     ++ List.filter
          (fun f => negb (fst (IsFixedLengthType (utils p) (Field_Type f))))
          fields,
     None).
Proof. apply reorderStructFields_ok. Qed.

(** C7.  When the classifier answers for every field, reordering the
    reordered sequence gives the reordered sequence again. *)
Theorem reorderStructFields_idempotent (fields : list Field) :
  Forall (fun f => snd (IsFixedLengthType (utils p) (Field_Type f)) = None)
         fields ->
  reorderStructFields p (fst (reorderStructFields p fields))
  = reorderStructFields p fields.
Proof.
  intros Hall. rewrite (reorderStructFields_ok fields Hall). cbn [fst].
  rewrite reorderStructFields_ok by by apply classified_partition.
  f_equal. rewrite !List.filter_app.
  rewrite filter_idem, filter_negb_filter, filter_filter_negb, filter_idem.
  by rewrite app_nil_r.
Qed.

(** C8.  When the classifier fails on some field, the result is the nil
    sequence together with the error the classifier gave for the first such
    field, unchanged. *)
Theorem reorderStructFields_error (fields : list Field) :
  Exists (fun f => snd (IsFixedLengthType (utils p) (Field_Type f)) <> None)
         fields ->
  exists pre f post err,
    fields = pre ++ f :: post
    /\ Forall (fun g => snd (IsFixedLengthType (utils p) (Field_Type g)) = None)
              pre
    /\ snd (IsFixedLengthType (utils p) (Field_Type f)) = Some err
    /\ reorderStructFields p fields = ([], Some err).
Proof.
  induction fields as [|g fields IH]; intros Hex.
  - by apply Exists_nil in Hex.
  - destruct (snd (IsFixedLengthType (utils p) (Field_Type g))) as [err|] eqn:Hg.
    + exists [], g, fields, err. repeat split; [by constructor | done |].
      unfold reorderStructFields.
      pose proof (classify_fields_error [] g fields err ∅ (List.Forall_nil _) Hg) as Hrun.
      cbn [app] in Hrun.
      destruct (classify_fields (utils p) (g :: fields) ∅) as [m e].
      simpl in Hrun. by subst e.
    + apply Exists_cons in Hex as [Hex|Hex]; [by rewrite Hg in Hex|].
      destruct (IH Hex) as (pre & f & post & err & -> & Hpre & Hf & _).
      exists (g :: pre), f, post, err. repeat split; [by constructor | done |].
      unfold reorderStructFields.
      assert (Forall (classified p) (g :: pre)) as Hpre' by by constructor.
      pose proof (classify_fields_error (g :: pre) f post err ∅ Hpre' Hf) as Hrun.
      cbn [app] in *.
      destruct (classify_fields (utils p) (g :: pre ++ f :: post) ∅) as [m e].
      simpl in Hrun. by subst e.
Qed.

End Reorder.

Section Envelope.

Context {Scope : Type}.
Variable p : patcher Scope.

(** The entries one field of [s] adds to [Requests] and to [Responses]. *)
Lemma filterBase_field_spec s req res f :
  filterBase_field (utils p) s (req, res) f
  = (req ++ (if decide (fst (Unexport (utils p) (Field_Name f)) = "base"
                        /\ Type_Name (Field_Type f) = "base.Base")
             then [s] else []),
     res ++ (if decide (fst (Unexport (utils p) (Field_Name f)) = "baseResp"
                        /\ Type_Name (Field_Type f) = "base.BaseResp")
             then [s] else [])).
Proof.
  unfold filterBase_field.
  destruct (Unexport (utils p) (Field_Name f)) as [fn e]. cbn [fst].
  f_equal.
  - destruct (String.eqb_spec fn "base") as [->|Hfn]; cbn [andb].
    + destruct (String.eqb_spec (Type_Name (Field_Type f)) "base.Base") as [Htn|Htn].
      * by rewrite decide_True.
      * rewrite decide_False; [by rewrite app_nil_r | tauto].
    + rewrite decide_False; [by rewrite app_nil_r | tauto].
  - destruct (String.eqb_spec fn "baseResp") as [->|Hfn]; cbn [andb].
    + destruct (String.eqb_spec (Type_Name (Field_Type f)) "base.BaseResp") as [Htn|Htn].
      * by rewrite decide_True.
      * rewrite decide_False; [by rewrite app_nil_r | tauto].
    + rewrite decide_False; [by rewrite app_nil_r | tauto].
Qed.

Lemma filterBase_fields_spec s fields req res :
  fold_left (filterBase_field (utils p) s) fields (req, res)
  = (req ++ flat_map (fun f =>
               if decide (fst (Unexport (utils p) (Field_Name f)) = "base"
                          /\ Type_Name (Field_Type f) = "base.Base")
               then [s] else []) fields,
     res ++ flat_map (fun f =>
               if decide (fst (Unexport (utils p) (Field_Name f)) = "baseResp"
                          /\ Type_Name (Field_Type f) = "base.BaseResp")
               then [s] else []) fields).
Proof.
  revert req res. induction fields as [|f fields IH]; intros req res.
  - cbn. by rewrite !app_nil_r.
  - cbn [fold_left flat_map]. rewrite filterBase_field_spec, IH.
    by rewrite <- !app_assoc.
Qed.

Lemma filterBase_structs_spec structs req res :
  fold_left (fun acc s => fold_left (filterBase_field (utils p) s) (Fields s) acc)
            structs (req, res)
  = (req ++ flat_map (fun s => flat_map (fun f =>
               if decide (fst (Unexport (utils p) (Field_Name f)) = "base"
                          /\ Type_Name (Field_Type f) = "base.Base")
               then [s] else []) (Fields s)) structs,
     res ++ flat_map (fun s => flat_map (fun f =>
               if decide (fst (Unexport (utils p) (Field_Name f)) = "baseResp"
                          /\ Type_Name (Field_Type f) = "base.BaseResp")
               then [s] else []) (Fields s)) structs).
Proof.
  revert req res. induction structs as [|s structs IH]; intros req res.
  - cbn. by rewrite !app_nil_r.
  - cbn [fold_left flat_map]. rewrite filterBase_fields_spec, IH.
    by rewrite <- !app_assoc.
Qed.

Lemma filterBase_closed_form (ast : Thrift) :
  filterBase p ast
  = {| Requests := flat_map (fun s => flat_map (fun f =>
          if decide (fst (Unexport (utils p) (Field_Name f)) = "base"
                     /\ Type_Name (Field_Type f) = "base.Base")
          then [s] else []) (Fields s)) (GetStructLike ast);
       Responses := flat_map (fun s => flat_map (fun f =>
          if decide (fst (Unexport (utils p) (Field_Name f)) = "baseResp"
                     /\ Type_Name (Field_Type f) = "base.BaseResp")
          then [s] else []) (Fields s)) (GetStructLike ast) |}.
Proof.
  unfold filterBase. by rewrite filterBase_structs_spec.
Qed.

(** C6.  [Requests] lists, in declaration order, every Record once for each
    of its fields whose normalized name equals "base" and whose type name
    equals "base.Base"; [Responses] does the same for "baseResp" and
    "base.BaseResp".  A field of any other name or type adds nothing. *)
Theorem filterBase_per_field (ast : Thrift) :
  Requests (filterBase p ast)
  = flat_map (fun s => flat_map (fun f =>
        if decide (fst (Unexport (utils p) (Field_Name f)) = "base"
                   /\ Type_Name (Field_Type f) = "base.Base")
        then [s] else []) (Fields s)) (GetStructLike ast)
  /\ Responses (filterBase p ast)
     = flat_map (fun s => flat_map (fun f =>
        if decide (fst (Unexport (utils p) (Field_Name f)) = "baseResp"
                   /\ Type_Name (Field_Type f) = "base.BaseResp")
        then [s] else []) (Fields s)) (GetStructLike ast).
Proof.
  rewrite filterBase_closed_form. by split.
Qed.

End Envelope.

(** C10.  [filterBase] is a total function with no error result, and the
    error of [Unexport] plays no part in it: whatever error each call reports,
    the result is the one computed from the names returned. *)
Theorem filterBase_discards_Unexport_error {Scope : Type} (p : patcher Scope)
    (ast : Thrift) (err : string -> option error) :
  filterBase (with_Unexport_error p err) ast = filterBase p ast.
Proof.
  rewrite !filterBase_closed_form. reflexivity.
Qed.

(** The sample document: the Record with two qualifying fields is listed
    twice; a field of another type, a longer name, a name in another case,
    and a name whose normalization failed add nothing. *)
Example filterBase_doc_a :
  filterBase sample_patcher doc_a
  = {| Requests := [struct_request; struct_request];
       Responses := [struct_response] |}.
Proof. reflexivity. Qed.

Example filterBase_failed_normalization :
  sample_Unexport "base" = ("base", None)
  /\ Requests (filterBase
       (with_Unexport_error sample_patcher (fun _ => Some (ExternalError "failed")))
       doc_a)
     = [struct_request; struct_request].
Proof. split; reflexivity. Qed.

(** The scenario of the reordering: [{id: i64, name: string, active: bool}]
    becomes [{id, active, name}]. *)
Example reorderStructFields_scenario :
  reorderStructFields sample_patcher [field_id; field_name; field_active]
  = ([field_id; field_active; field_name], None).
Proof. by vm_compute. Qed.

Lemma reorderStructFields_stable_partition_witness :
  reorderStructFields sample_patcher [field_id; field_name; field_active]
  = (List.filter
       (fun f => fst (IsFixedLengthType (utils sample_patcher) (Field_Type f)))
       [field_id; field_name; field_active]
     ++ List.filter
          (fun f => negb (fst (IsFixedLengthType (utils sample_patcher) (Field_Type f))))
          [field_id; field_name; field_active],
     None).
Proof.
  apply (reorderStructFields_stable_partition sample_patcher).
  repeat constructor.
Defined.

Lemma reorderStructFields_idempotent_witness :
  reorderStructFields sample_patcher
    (fst (reorderStructFields sample_patcher [field_id; field_name; field_active]))
  = reorderStructFields sample_patcher [field_id; field_name; field_active].
Proof.
  apply (reorderStructFields_idempotent sample_patcher).
  repeat constructor.
Defined.

Lemma reorderStructFields_error_witness :
  exists pre f post err,
    [field_id; field_loop; field_name] = pre ++ f :: post
    /\ Forall (fun g => snd (IsFixedLengthType (utils sample_patcher) (Field_Type g))
                        = None) pre
    /\ snd (IsFixedLengthType (utils sample_patcher) (Field_Type f)) = Some err
    /\ reorderStructFields sample_patcher [field_id; field_loop; field_name]
       = ([], Some err).
Proof.
  apply (reorderStructFields_error sample_patcher).
  apply Exists_cons_tl, Exists_cons_hd. vm_compute. discriminate.
Defined.


(** ** Paths *)

Section Paths.
Import filepath.

Lemma elements_cons s : exists e es, elements s = e :: es.
Proof.
  destruct s as [|c s]; cbn [elements]; [by eauto|].
  destruct (isSlash c); [by eauto|].
  destruct (elements s); eauto.
Qed.

Lemma elements_String c s :
  elements (String c s)
  = if isSlash c then "" :: elements s
    else match elements s with
         | e :: es => String c e :: es
         | [] => [String c ""]
         end.
Proof. reflexivity. Qed.

(** The elements of [a/b] are those of [a] followed by those of [b]. *)
Lemma elements_app_slash a b :
  elements (a +:+ "/" +:+ b) = elements a ++ elements b.
Proof.
  induction a as [|c a IH].
  - reflexivity.
  - change (String c a +:+ "/" +:+ b) with (String c (a +:+ "/" +:+ b)).
    rewrite !elements_String, IH.
    destruct (isSlash c); [done|].
    destruct (elements_cons a) as (e & es & ->). done.
Qed.

Lemma elements_without_slash s :
  Forall (fun e => elements e = [e]) (elements s).
Proof.
  induction s as [|c s IH]; [by repeat constructor|].
  rewrite elements_String.
  destruct (isSlash c) eqn:Hc; [by constructor|].
  destruct (elements s) as [|e es].
  { repeat constructor. by rewrite elements_String, Hc. }
  apply Forall_cons in IH as [He Hes].
  constructor; [|done]. by rewrite elements_String, Hc, He.
Qed.

Lemma elements_Join l :
  l <> [] -> Forall (fun e => elements e = [e]) l ->
  elements (strings.Join l "/") = l.
Proof.
  induction l as [|e l IH]; [done|]. intros _ Hall.
  apply Forall_cons in Hall as [He Hl].
  destruct l as [|e' l]; [done|].
  change (strings.Join (e :: e' :: l) "/")
    with (e +:+ "/" +:+ strings.Join (e' :: l) "/").
  rewrite elements_app_slash, He, IH by done. done.
Qed.

Lemma regular_not_rooted e : elements e = [e] -> rooted e = false.
Proof.
  destruct e as [|c e]; [done|]. rewrite elements_String. cbn [rooted].
  by destruct (isSlash c).
Qed.

Lemma clean_element_regular r out e :
  regular e -> clean_element r out e = e :: out.
Proof.
  intros (_ & H1 & H2 & H3). unfold clean_element.
  apply String.eqb_neq in H1, H2, H3. by rewrite H1, H2, H3.
Qed.

Lemma normal_nil r : normal r [].
Proof. exists [], []. by repeat split. Qed.

Lemma normal_tail r e out : normal r (e :: out) -> normal r out.
Proof.
  intros (regs & dots & Heq & Hregs & Hdots & Hr).
  destruct regs as [|g regs]; cbn [app] in Heq.
  - destruct dots as [|d dots]; [done|]. injection Heq as -> ->.
    apply Forall_cons in Hdots as [_ Hdots].
    exists [], dots. repeat split; [done | done |].
    intros Hr'. by specialize (Hr Hr').
  - injection Heq as -> ->. apply Forall_cons in Hregs as [_ Hregs].
    by exists regs, dots.
Qed.

Lemma normal_head r e out :
  normal r (e :: out) ->
  regular e \/ (e = ".." /\ r = false /\ Forall (fun e => e = "..") out).
Proof.
  intros (regs & dots & Heq & Hregs & Hdots & Hr).
  destruct regs as [|g regs]; cbn [app] in Heq.
  - right. destruct dots as [|d dots]; [done|]. injection Heq as -> ->.
    apply Forall_cons in Hdots as [-> Hdots].
    repeat split; [|done]. destruct r; [|done]. by specialize (Hr eq_refl).
  - left. injection Heq as -> ->. by apply Forall_cons in Hregs as [? _].
Qed.

Lemma normal_regular r e out : regular e -> normal r out -> normal r (e :: out).
Proof.
  intros He (regs & dots & -> & Hregs & Hdots & Hr).
  exists (e :: regs), dots. repeat split; [by constructor | done | done].
Qed.

Lemma normal_dots out :
  Forall (fun e => e = "..") out -> normal false (".." :: out).
Proof.
  intros Hout. exists [], (".." :: out).
  repeat split; [done | by constructor | done].
Qed.

Lemma clean_element_normal r out e :
  elements e = [e] -> normal r out -> normal r (clean_element r out e).
Proof.
  intros He Hout. unfold clean_element.
  destruct (String.eqb_spec e "") as [->|H1]; [done|].
  destruct (String.eqb_spec e ".") as [->|H2]; [done|]. cbn [orb].
  destruct (String.eqb_spec e "..") as [->|H3].
  - destruct out as [|last out].
    + destruct r; [apply normal_nil | by apply normal_dots].
    + destruct (String.eqb_spec last "..") as [->|Hlast].
      * apply normal_head in Hout as [(_ & _ & _ & Hne)|(_ & -> & Hdots)]; [done|].
        apply normal_dots. by constructor.
      * by apply normal_tail in Hout.
  - by apply normal_regular.
Qed.

Lemma fold_clean_normal r l out :
  Forall (fun e => elements e = [e]) l -> normal r out ->
  normal r (fold_left (clean_element r) l out).
Proof.
  revert out. induction l as [|e l IH]; intros out Hl Hout; [done|].
  apply Forall_cons in Hl as [He Hl]. cbn [fold_left].
  apply IH; [done|]. by apply clean_element_normal.
Qed.

Lemma kept_normal path : normal (rooted path) (kept path).
Proof.
  apply fold_clean_normal; [apply elements_without_slash | apply normal_nil].
Qed.

(** Cleaning the kept elements again keeps all of them. *)
Lemma fold_clean_rev r out :
  normal r out -> fold_left (clean_element r) (rev out) [] = out.
Proof.
  induction out as [|e out IH]; intros Hout; [done|].
  cbn [rev]. rewrite fold_left_app. cbn [fold_left].
  rewrite IH by by apply normal_tail in Hout.
  apply normal_head in Hout as [He|(-> & -> & Hdots)].
  - by apply clean_element_regular.
  - destruct out as [|d out]; [done|].
    apply Forall_cons in Hdots as [-> _]. done.
Qed.

Lemma normal_without_slash r out :
  normal r out -> Forall (fun e => elements e = [e] /\ e <> "") out.
Proof.
  intros (regs & dots & -> & Hregs & Hdots & _). apply Forall_app. split.
  - eapply Forall_impl; [exact Hregs|]. by intros e (? & ? & _).
  - eapply Forall_impl; [exact Hdots|]. by intros e ->.
Qed.

Lemma rev_cons_not_nil {A} (x : A) l : exists y l', rev (x :: l) = y :: l'.
Proof.
  cbn [rev]. destruct (rev l) as [|y l']; cbn [app]; eauto.
Qed.

Lemma render_cons r out :
  out <> [] ->
  render r out = (if r then "/" else "") +:+ strings.Join (rev out) "/".
Proof.
  intros Hout. unfold render. destruct out as [|e out]; [done|].
  by destruct (rev_cons_not_nil e out) as (y & l' & ->).
Qed.

Lemma Join_not_rooted l :
  l <> [] -> Forall (fun e => elements e = [e] /\ e <> "") l ->
  rooted (strings.Join l "/") = false.
Proof.
  destruct l as [|e l]; [done|]. intros _ Hall.
  apply Forall_cons in Hall as [[He Hne] _].
  destruct e as [|c e]; [done|].
  pose proof (regular_not_rooted _ He) as Hc. cbn [rooted] in Hc.
  destruct l; cbn [strings.Join String.append rooted]; done.
Qed.

Lemma rooted_render r out : normal r out -> rooted (render r out) = r.
Proof.
  intros Hout. destruct out as [|e out].
  - by destruct r.
  - rewrite render_cons by done. destruct r; [done|].
    change ("" +:+ ?s) with s. apply Join_not_rooted.
    + destruct (rev_cons_not_nil e out) as (y & l' & ->). done.
    + apply Forall_rev. by eapply normal_without_slash.
Qed.

Lemma kept_render r out : normal r out -> kept (render r out) = out.
Proof.
  intros Hout. unfold kept. rewrite rooted_render by done.
  destruct out as [|e out].
  - by destruct r.
  - rewrite render_cons by done.
    assert (elements (strings.Join (rev (e :: out)) "/") = rev (e :: out)) as HJ.
    { apply elements_Join.
      - destruct (rev_cons_not_nil e out) as (y & l' & ->). done.
      - apply Forall_rev. eapply Forall_impl; [by eapply normal_without_slash|].
        by intros ? [? _]. }
    destruct r.
    + change ("/" +:+ ?s) with (String "/" s).
      rewrite elements_String. change (isSlash "/") with true. cbv iota.
      rewrite HJ. cbn [fold_left]. change (clean_element true [] "") with (@nil string).
      by apply fold_clean_rev.
    + change ("" +:+ ?s) with s. rewrite HJ. by apply fold_clean_rev.
Qed.

Lemma Clean_render path : Clean path = render (rooted path) (kept path).
Proof. by destruct path. Qed.

(** Cleaning a cleaned path changes nothing. *)
Lemma rooted_Clean path : rooted (Clean path) = rooted path.
Proof. rewrite Clean_render. apply rooted_render, kept_normal. Qed.

Lemma kept_Clean path : kept (Clean path) = kept path.
Proof. rewrite Clean_render. apply kept_render, kept_normal. Qed.

Lemma Clean_idempotent path : Clean (Clean path) = Clean path.
Proof.
  rewrite (Clean_render (Clean path)), rooted_Clean, kept_Clean.
  by rewrite <- Clean_render.
Qed.

(** Joining a directory and a regular name. *)
Lemma Join_regular d x :
  regular x -> Join [d; x] = render (rooted d) (x :: kept d).
Proof.
  intros Hx. pose proof Hx as (Hel & Hne & _).
  destruct d as [|c d].
  - cbn [Join String.eqb]. apply String.eqb_neq in Hne. rewrite Hne.
    cbn [strings.Join]. rewrite Clean_render.
    rewrite (regular_not_rooted x Hel). cbn [rooted]. f_equal.
    unfold kept. rewrite Hel, (regular_not_rooted x Hel). cbn [fold_left].
    by rewrite clean_element_regular.
  - cbn [Join String.eqb].
    change (strings.Join [String c d; x] "/")
      with (String c d +:+ "/" +:+ x).
    rewrite Clean_render. unfold kept.
    change (rooted (String c d +:+ "/" +:+ x)) with (rooted (String c d)).
    rewrite elements_app_slash, Hel, fold_left_app. cbn [fold_left].
    by rewrite clean_element_regular.
Qed.

Lemma Join_Clean_regular d x : regular x -> Join [Clean d; x] = Join [d; x].
Proof.
  intros Hx. by rewrite !Join_regular, rooted_Clean, kept_Clean.
Qed.

Lemma Join_regular_inj d d' x y :
  regular x -> regular y -> Join [d; x] = Join [d'; y] ->
  x = y /\ Clean d = Clean d'.
Proof.
  intros Hx Hy. rewrite !Join_regular by done. intros Heq.
  assert (normal (rooted d) (x :: kept d)) as Hn
    by (apply normal_regular; [done | apply kept_normal]).
  assert (normal (rooted d') (y :: kept d')) as Hn'
    by (apply normal_regular; [done | apply kept_normal]).
  pose proof (rooted_render _ _ Hn) as Hr.
  pose proof (kept_render _ _ Hn) as Hk.
  rewrite Heq, rooted_render in Hr by done.
  rewrite Heq, kept_render in Hk by done.
  injection Hk as <- Hk. split; [done|].
  by rewrite !Clean_render, Hr, Hk.
Qed.

(** The file part of [Split] has no slash, and the two parts make up the
    path. *)
Lemma Split_file path : elements (snd (Split path)) = [snd (Split path)].
Proof.
  induction path as [|c path IH]; [done|]. cbn [Split].
  destruct (Split path) as [dir file]. cbn [snd] in IH.
  destruct dir; [|done].
  destruct (isSlash c) eqn:Hc; [done|]. cbn [snd].
  by rewrite elements_String, Hc, IH.
Qed.

Lemma Split_app path : fst (Split path) +:+ snd (Split path) = path.
Proof.
  induction path as [|c path IH]; [done|]. cbn [Split].
  destruct (Split path) as [dir file]. cbn [fst snd] in IH.
  destruct dir.
  - destruct (isSlash c); cbn [fst snd String.append] in *; by subst.
  - cbn [fst snd] in *. change (String c (String a dir) +:+ file)
      with (String c (String a dir +:+ file)). by rewrite IH.
Qed.

Lemma regular_k_prefix base :
  elements base = [base] -> regular ("k-" +:+ base).
Proof.
  intros Hb. repeat split; [|done|done|].
  - change ("k-" +:+ base) with (String "k" (String "-" base)).
    rewrite !elements_String. change (isSlash "k") with false.
    change (isSlash "-") with false. cbv iota. by rewrite Hb.
  - intros H. cbn in H. discriminate H.
Qed.

Lemma regular_k_consts : regular "k-consts.go".
Proof. by apply (regular_k_prefix "consts.go"). Qed.

End Paths.

(** ** The generation loop *)

(** The functions of [filepath] on examples of the Go documentation and
    tests. *)
Example Clean_examples :
  map filepath.Clean
    [""; "abc"; "abc/def"; "a/b/c"; "."; ".."; "../.."; "../../abc"; "/abc";
     "/"; "abc/"; "abc/def/"; "a/b/c/"; "./"; "../"; "../../"; "/abc/";
     "abc//def//ghi"; "//abc"; "///abc"; "//abc//"; "abc//";
     "abc/./def"; "/./abc/def"; "abc/.";
     "abc/def/ghi/../jkl"; "abc/def/../ghi/../jkl"; "abc/def/.."; "abc/def/../..";
     "/abc/def/../.."; "abc/def/../../.."; "/abc/def/../../..";
     "abc/def/../../../ghi/jkl/../../../mno"; "/../abc";
     "abc/./../def"; "abc//./../def"; "abc/../../././../def"]
  = ["."; "abc"; "abc/def"; "a/b/c"; "."; ".."; "../.."; "../../abc"; "/abc";
     "/"; "abc"; "abc/def"; "a/b/c"; "."; ".."; "../.."; "/abc";
     "abc/def/ghi"; "/abc"; "/abc"; "/abc"; "abc";
     "abc/def"; "/abc/def"; "abc";
     "abc/def/jkl"; "abc/jkl"; "abc"; ".";
     "/"; ".."; "/";
     "../../mno"; "/abc";
     "def"; "def"; "../../def"].
Proof. reflexivity. Qed.

Example Split_examples :
  map filepath.Split ["a/b"; "a/b/"; "a/"; "a"; "/"; ""; "static/myfile.css"]
  = [("a/", "b"); ("a/b/", ""); ("a/", ""); ("", "a"); ("/", ""); ("", "");
     ("static/", "myfile.css")].
Proof. reflexivity. Qed.

Example Base_examples :
  map filepath.Base
    [""; "."; "/."; "/"; "////"; "x/"; "abc"; "abc/def"; "a/b/.x"; "a/b/c.";
     "a/b/c.x"; "/foo/bar/baz.js"; "dev.txt"]
  = ["."; "."; "."; "/"; "/"; "x"; "abc"; "def"; ".x"; "c."; "c.x"; "baz.js";
     "dev.txt"].
Proof. reflexivity. Qed.

Example Dir_examples :
  map filepath.Dir
    [""; "."; "/."; "/"; "////"; "/foo"; "x/"; "abc"; "abc/def"; "a/b/.x";
     "a/b/c."; "a/b/c.x"; "/foo/bar/baz/"; "/dirty//path///"; "../todo.txt"]
  = ["."; "."; "/"; "/"; "/"; "/"; "x"; "."; "abc"; "a/b"; "a/b"; "a/b";
     "/foo/bar/baz"; "/dirty/path"; ".."].
Proof. reflexivity. Qed.

Example Join_examples :
  map filepath.Join
    [[]; [""]; ["a"]; ["a"; "b"]; ["a"; ""]; [""; "b"]; ["/"; "a"]; ["/"; ""];
     ["a/"; "b"]; ["a/"; ""]; [""; ""]; ["a"; "b/c"]; ["a/b"; "/c"];
     ["a/b"; "../../../xyz"]]
  = [""; ""; "a"; "a/b"; "a"; "b"; "/a"; "/"; "a/b"; "a"; ""; "a/b/c"; "a/b/c";
     "../xyz"].
Proof. reflexivity. Qed.

Section OutputPaths.
Import filepath.

Variable req : Request.

Lemma consts_path_eq path :
  consts_path req path
  = Join [fst (Split (Join [OutputPath req; path])); "k-consts.go"].
Proof.
  unfold consts_path, Dir. apply Join_Clean_regular, regular_k_consts.
Qed.

(** C2 (as amended).  The target path of a document and the path of the
    protection file of a directory are equal exactly when the base name of
    the document's output file is "consts.go" and the directory is the
    document's own; for every other base name the two are distinct. *)
Theorem target_path_eq_consts_path_iff (path path' : string) :
  target_path req path = consts_path req path'
  <-> snd (Split (Join [OutputPath req; path])) = "consts.go"
      /\ Dir (Join [OutputPath req; path]) = Dir (Join [OutputPath req; path']).
Proof.
  unfold target_path, consts_path, Dir.
  pose proof (Split_file (Join [OutputPath req; path])) as Hbase.
  destruct (Split (Join [OutputPath req; path])) as [dir base].
  cbn [fst snd] in *. split.
  - intros Heq.
    apply Join_regular_inj in Heq as [Heq Hdir];
      [| by apply regular_k_prefix | apply regular_k_consts].
    rewrite Clean_idempotent in Hdir. split; [by injection Heq | done].
  - intros [-> <-]. symmetry. apply Join_Clean_regular, regular_k_consts.
Qed.

End OutputPaths.

(** C2 (as stated) fails: for the document whose output file is
    "pkg/consts.go" the target path is the path of the protection file, and
    the run returns two units with that path. *)
Lemma patch_consts_go_same_path :
  target_path (mkRequest [doc_consts] "/out") "pkg/consts.go"
    = consts_path (mkRequest [doc_consts] "/out") "pkg/consts.go"
  /\ snd (patch sample_ReadFile sample_patcher (mkRequest [doc_consts] "/out"))
     = None
  /\ map Name (fst (patch sample_ReadFile sample_patcher
                      (mkRequest [doc_consts] "/out")))
     = ["/out/pkg/k-consts.go"; "/out/pkg/k-consts.go"].
Proof. by vm_compute. Qed.

Section ProtectionRegistry.
Import filepath.

Lemma protect_registered st dir pkgName :
  is_Some (protection (protect st dir pkgName) !! Join [dir; "k-consts.go"]).
Proof.
  unfold protect.
  destruct (protection st !! Join [dir; "k-consts.go"]) as [g|] eqn:Hreg.
  - by rewrite Hreg.
  - cbn [protection]. by rewrite lookup_insert_eq.
Qed.

Lemma protect_keeps_registered st dir pkgName c :
  is_Some (protection st !! c) ->
  is_Some (protection (protect st dir pkgName) !! c).
Proof.
  intros Hc. unfold protect.
  destruct (protection st !! Join [dir; "k-consts.go"]) eqn:Hreg; [done|].
  cbn [protection]. rewrite lookup_insert.
  by case_decide.
Qed.

(** Two cleaned directories with the same protection path are equal. *)
Lemma consts_path_inj d d' :
  Join [Clean d; "k-consts.go"] = Join [Clean d'; "k-consts.go"] ->
  Clean d = Clean d'.
Proof.
  intros Heq.
  apply Join_regular_inj in Heq as [_ Heq]; try apply regular_k_consts.
  by rewrite !Clean_idempotent in Heq.
Qed.

Lemma protected_once_snoc dir units u :
  protected_once dir units ->
  (directory (fst u) = dir -> kind (fst u) <> ProtectionUnit) ->
  protected_once dir (units ++ [u]).
Proof.
  intros (l1 & pkgName & l2 & -> & Hl1 & Hl2) Hu.
  exists l1, pkgName, (l2 ++ [u]). split; [by rewrite <- app_assoc|].
  split; [done|]. intros v [Hv|[<-|[]]]%in_app_or; auto.
Qed.

Lemma protect_invariant st d pkgName :
  loop_invariant st -> loop_invariant (protect st (Clean d) pkgName).
Proof.
  intros [Hunits Hreg]. unfold protect.
  destruct (protection st !! Join [Clean d; "k-consts.go"]) eqn:Hd; [done|].
  split; cbn [patches protection].
  - intros u [Hu|[<-|[]]]%in_app_or.
    + destruct (Hunits u Hu) as (d' & Hdir & Hsome). exists d'. split; [done|].
      rewrite lookup_insert. by case_decide.
    + exists d. split; [done|]. by rewrite lookup_insert_eq.
  - intros d' Hsome. rewrite lookup_insert in Hsome. case_decide as Hc.
    + apply consts_path_inj in Hc. rewrite <- Hc.
      exists (patches st), pkgName, []. split; [done|]. split; [|done].
      intros v Hv Hdir. destruct (Hunits v Hv) as (dv & Hdv & Hsv).
      rewrite Hdir in Hdv. rewrite <- Hdv, Hd in Hsv. by destruct Hsv.
    + apply protected_once_snoc; [by apply Hreg|].
      cbn [protection_unit fst directory]. intros Hdir. by rewrite Hdir in Hc.
Qed.

Lemma append_patch_invariant st k d g :
  loop_invariant st ->
  is_Some (protection st !! Join [Clean d; "k-consts.go"]) ->
  k <> ProtectionUnit ->
  loop_invariant (append_patch st (mkOrigin k (Clean d)) g).
Proof.
  intros [Hunits Hreg] Hd Hk. split; cbn [append_patch patches protection].
  - intros u [Hu|[<-|[]]]%in_app_or; [by apply Hunits|]. by exists d.
  - intros d' Hsome. apply protected_once_snoc; [by apply Hreg|]. done.
Qed.

Lemma loop_invariant_init :
  loop_invariant {| patches := []; protection := ∅ |}.
Proof.
  split; cbn [patches protection]; [done|].
  intros d Hsome. rewrite lookup_empty in Hsome. by destruct Hsome.
Qed.

End ProtectionRegistry.

Section GenerationLoop.
Import filepath.

Context {Scope : Type}.
Variable ReadFile : string -> string * option error.
Variable p : patcher Scope.
Variable req : Request.

(** The body of the loop, with its guarded [append] written as [protect]. *)
Lemma patch_document_protect st ast :
  patch_document ReadFile p req st ast
  = or_return st (BuildScope (utils p) ast)
      (Errorf "build scope for ast %q: %w" (Filename ast)) (fun scope =>
    let pkgName :=
      NamespaceToPackage (utils p) (GetNamespaceOrReferenceName ast "go") in
    or_return st (GetFilePath (utils p) ast) (fun err => err) (fun path =>
    let full := Join [OutputPath req; path] in
    let st1 := protect st (Dir full) pkgName in
    or_return st1 (ResolveImports (utils p) scope)
      (Errorf "resolve imports failed for %q: %w" (Filename ast)) (fun imports =>
    or_return st1 (fileTpl p {| Data_AST := ast; PkgName := pkgName;
                          Imports := filterStdLib (module p) imports |})
      (Errorf "%q: %w" (Filename ast)) (fun buf =>
    let st2 := append_patch st1 (mkOrigin DocumentUnit (Dir full))
                 {| Content := buf; Name := target_path req path |} in
    if copyIDL p then
      or_return st2 (ReadFile (Filename ast)) (Errorf "read %q: %w" (Filename ast))
        (fun content =>
           (append_patch st2 (mkOrigin CopyUnit (Dir full))
              {| Content := content;
                 Name := Join [Dir full; Base (Filename ast)] |}, None))
    else (st2, None))))).
Proof.
  unfold patch_document, or_return, protect, target_path.
  destruct (BuildScope (utils p) ast) as [scope [e|]]; cbn [fst snd]; [done|].
  destruct (GetFilePath (utils p) ast) as [path [e|]]; cbn [fst snd]; [done|].
  destruct (Split (Join [OutputPath req; path])) as [dir base].
  reflexivity.
Qed.

Lemma patch_document_step st ast st' e :
  loop_invariant st ->
  patch_document ReadFile p req st ast = (st', e) ->
  loop_invariant st'
  /\ (exists l, patches st' = patches st ++ l)
  /\ (e = None ->
      exists g,
        In (mkOrigin DocumentUnit
              (Dir (Join [OutputPath req; fst (GetFilePath (utils p) ast)])), g)
           (patches st')).
Proof.
  intros Hinv. rewrite patch_document_protect. unfold or_return.
  destruct (BuildScope (utils p) ast) as [scope [e1|]]; cbn [fst snd].
  { intros [= <- <-]. split; [done|]. split; [by exists []; rewrite app_nil_r|done]. }
  destruct (GetFilePath (utils p) ast) as [path [e2|]]; cbn [fst snd].
  { intros [= <- <-]. split; [done|]. split; [by exists []; rewrite app_nil_r|done]. }
  cbv zeta.
  set (pkgName := NamespaceToPackage (utils p) (GetNamespaceOrReferenceName ast "go")).
  set (full := Join [OutputPath req; path]).
  pose proof (protect_invariant st (fst (Split full)) pkgName Hinv) as Hinv1.
  pose proof (protect_registered st (Dir full) pkgName) as Hreg1.
  assert (exists l, patches (protect st (Dir full) pkgName) = patches st ++ l)
    as [l1 Hl1].
  { unfold protect. destruct (protection st !! _); [by exists []; rewrite app_nil_r|].
    by eexists. }
  change (Clean (fst (Split full))) with (Dir full) in Hinv1.
  set (st1 := protect st (Dir full) pkgName) in *.
  destruct (ResolveImports (utils p) scope) as [imports [e3|]]; cbn [fst snd].
  { intros [= <- <-]. split; [done|]. split; [by exists l1|done]. }
  destruct (fileTpl p _) as [buf [e4|]]; cbn [fst snd].
  { intros [= <- <-]. split; [done|]. split; [by exists l1|done]. }
  set (unit := {| Content := buf; Name := target_path req path |}).
  assert (loop_invariant (append_patch st1 (mkOrigin DocumentUnit (Dir full)) unit))
    as Hinv2 by by apply append_patch_invariant.
  assert (In (mkOrigin DocumentUnit (Dir full), unit)
             (patches (append_patch st1 (mkOrigin DocumentUnit (Dir full)) unit)))
    as Hin2 by (cbn [append_patch patches]; apply in_or_app; right; by left).
  destruct (copyIDL p).
  - destruct (ReadFile (Filename ast)) as [content [e5|]]; cbn [fst snd].
    + intros [= <- <-]. split; [done|]. split; [|done].
      exists (l1 ++ [(mkOrigin DocumentUnit (Dir full), unit)]).
      cbn [append_patch patches]. by rewrite Hl1, <- app_assoc.
    + intros [= <- <-]. split; [|split].
      * apply append_patch_invariant; [done | exact Hreg1 | done].
      * eexists. cbn [append_patch patches]. by rewrite Hl1, <- !app_assoc.
      * intros _. exists unit. cbn [append_patch patches].
        apply in_or_app. left. apply in_or_app. right. by left.
  - intros [= <- <-]. split; [done|]. split.
    + eexists. cbn [append_patch patches]. by rewrite Hl1, <- app_assoc.
    + intros _. by exists unit.
Qed.

Lemma patch_range_step docs st st' e :
  loop_invariant st ->
  patch_range ReadFile p req docs st = (st', e) ->
  loop_invariant st'
  /\ (exists l, patches st' = patches st ++ l)
  /\ (e = None ->
      forall ast, In ast docs ->
        exists g,
          In (mkOrigin DocumentUnit
                (Dir (Join [OutputPath req; fst (GetFilePath (utils p) ast)])), g)
             (patches st')).
Proof.
  revert st. induction docs as [|ast docs IH]; intros st Hinv; cbn [patch_range].
  - intros [= <- <-]. split; [done|]. split; [by exists []; rewrite app_nil_r|].
    by intros _ ast [].
  - destruct (patch_document ReadFile p req st ast) as [st1 e1] eqn:Hdoc.
    destruct (patch_document_step _ _ _ _ Hinv Hdoc) as (Hinv1 & [l1 Hl1] & Hdoc1).
    destruct e1 as [err|].
    + intros [= <- <-]. split; [done|]. split; [by exists l1|done].
    + intros Hrange.
      destruct (IH st1 Hinv1 Hrange) as (Hinv' & [l' Hl'] & Hdocs).
      split; [done|]. split.
      * exists (l1 ++ l'). by rewrite Hl', Hl1, <- app_assoc.
      * intros -> a [<-|Ha]; [|by apply Hdocs].
        destruct (Hdoc1 eq_refl) as [g Hg]. exists g.
        rewrite Hl'. apply in_or_app. by left.
Qed.

(** C5.  In every run, for every directory a unit was appended for, the list
    holds one protection unit of that directory, with path [dir/k-consts.go]
    and the package declaration followed by the placeholder as content; every
    unit before it belongs to another directory, and no unit after it is a
    protection unit of that directory.  A run without error returns that list,
    which holds a document unit for the directory of every document. *)
Theorem patch_protection_once (st : LoopState) (err : option error) :
  patch_run ReadFile p req = (st, err) ->
  (forall u, In u (patches st) ->
     exists l1 pkgName l2,
       patches st
       = l1 ++ (mkOrigin ProtectionUnit (directory (fst u)),
                {| Content := "package " +:+ pkgName +:+ String "010" ""
                                +:+ kitexUnusedProtection;
                   Name := Join [directory (fst u); "k-consts.go"] |}) :: l2
       /\ (forall v, In v l1 -> directory (fst v) <> directory (fst u))
       /\ (forall v, In v l2 -> directory (fst v) = directory (fst u) ->
                     kind (fst v) <> ProtectionUnit))
  /\ (err = None ->
      patch ReadFile p req = (map snd (patches st), None)
      /\ forall ast, In ast (DepthFirstSearch req) ->
           exists g,
             In (mkOrigin DocumentUnit
                   (Dir (Join [OutputPath req; fst (GetFilePath (utils p) ast)])), g)
                (patches st)).
Proof.
  intros Hrun. unfold patch. rewrite Hrun. unfold patch_run in Hrun.
  destruct (patch_range_step _ _ _ _ loop_invariant_init Hrun)
    as ([Hunits Hreg] & _ & Hdocs).
  split.
  - intros u Hu. destruct (Hunits u Hu) as (d & Hdir & Hsome).
    rewrite Hdir. by apply Hreg.
  - intros ->. split; [done|]. by apply Hdocs.
Qed.

(** An error of [patch_document] is wrapped with the filename of the document,
    unless it is the error of [GetFilePath], which is returned as it is. *)
Lemma patch_document_error st ast st' err :
  patch_document ReadFile p req st ast = (st', Some err) ->
  quoted_arg err = Some (Filename ast)
  \/ (snd (BuildScope (utils p) ast) = None
      /\ snd (GetFilePath (utils p) ast) = Some err).
Proof.
  rewrite patch_document_protect. unfold or_return.
  destruct (BuildScope (utils p) ast) as [scope [e1|]]; cbn [fst snd].
  { intros [= _ <-]. by left. }
  destruct (GetFilePath (utils p) ast) as [path [e2|]]; cbn [fst snd].
  { intros [= _ <-]. by right. }
  destruct (ResolveImports (utils p) scope) as [imports [e3|]]; cbn [fst snd].
  { intros [= _ <-]. by left. }
  destruct (fileTpl p _) as [buf [e4|]]; cbn [fst snd].
  { intros [= _ <-]. by left. }
  destruct (copyIDL p); [|done].
  destruct (ReadFile (Filename ast)) as [content [e5|]]; cbn [fst snd]; [|done].
  intros [= _ <-]. by left.
Qed.

Lemma patch_range_error docs st st' err :
  patch_range ReadFile p req docs st = (st', Some err) ->
  exists ast,
    In ast docs
    /\ (quoted_arg err = Some (Filename ast)
        \/ (snd (BuildScope (utils p) ast) = None
            /\ snd (GetFilePath (utils p) ast) = Some err)).
Proof.
  revert st. induction docs as [|ast docs IH]; intros st; cbn [patch_range]; [done|].
  destruct (patch_document ReadFile p req st ast) as [st1 [e1|]] eqn:Hdoc.
  - intros [= _ <-]. exists ast. split; [by left|].
    by eapply patch_document_error.
  - intros Hrange. destruct (IH _ Hrange) as (a & Ha & Herr).
    exists a. split; [by right | done].
Qed.

(** Every error of [patch] comes with the nil list; it names the document it
    arose in, except when it is the error [GetFilePath] returned. *)
Lemma patch_error err :
  snd (patch ReadFile p req) = Some err ->
  fst (patch ReadFile p req) = []
  /\ exists ast,
       In ast (DepthFirstSearch req)
       /\ (quoted_arg err = Some (Filename ast)
           \/ (snd (BuildScope (utils p) ast) = None
               /\ snd (GetFilePath (utils p) ast) = Some err)).
Proof.
  unfold patch, patch_run.
  destruct (patch_range ReadFile p req (DepthFirstSearch req) _) as [st [e|]] eqn:Hrun;
    cbn [fst snd]; [|done].
  intros [= ->]. split; [done|]. by eapply patch_range_error.
Qed.

End GenerationLoop.

Lemma patch_protection_once_witness :
  (forall u,
     In u (patches (fst (patch_run sample_ReadFile sample_patcher sample_request))) ->
     protected_once (directory (fst u))
       (patches (fst (patch_run sample_ReadFile sample_patcher sample_request))))
  /\ map (fun u => (kind (fst u), Name (snd u)))
         (patches (fst (patch_run sample_ReadFile sample_patcher sample_request)))
     = [(ProtectionUnit, "/out/pkg/k-consts.go");
        (DocumentUnit, "/out/pkg/k-a.go");
        (DocumentUnit, "/out/pkg/k-b.go")].
Proof.
  split; [|by vm_compute].
  apply (patch_protection_once sample_ReadFile sample_patcher sample_request
           _ (snd (patch_run sample_ReadFile sample_patcher sample_request))).
  by vm_compute.
Defined.

(** The scenario of the protection file: two documents of one directory give
    three units, the protection file first. *)
Example patch_two_documents :
  map Name (fst (patch sample_ReadFile sample_patcher sample_request))
  = ["/out/pkg/k-consts.go"; "/out/pkg/k-a.go"; "/out/pkg/k-b.go"]
  /\ snd (patch sample_ReadFile sample_patcher sample_request) = None.
Proof. by vm_compute. Qed.

(** A failing template: the error names the document, and the units appended
    before the failure are not returned. *)
Example patch_render_error :
  patch sample_ReadFile sample_patcher (mkRequest [doc_a; doc_nopkg] "/out")
  = ([], Some (Errorf "%q: %w" "b.thrift"
                 (ExternalError "template: no package name"))).
Proof. by vm_compute. Qed.

(** C3 fails for the output-path class.  In the run over [a.thrift] and
    [unknown.thrift] the path of the second document cannot be computed:
    [patch] returns the nil list and the error of [GetFilePath] itself, which
    does not carry the filename of the document. *)
Theorem patch_GetFilePath_error_not_wrapped :
  snd (GetFilePath (utils sample_patcher) doc_unknown)
    = Some (ExternalError "no file path")
  /\ patch sample_ReadFile sample_patcher (mkRequest [doc_a; doc_unknown] "/out")
     = ([], Some (ExternalError "no file path"))
  /\ quoted_arg (ExternalError "no file path") <> Some (Filename doc_unknown).
Proof. by vm_compute. Qed.

(** * Further properties *)

(** ** The import filter *)

(** X1.  Filtering a filtered mapping changes nothing. *)
Theorem filterStdLib_idempotent (module : string) (imports : gmap string string) :
  filterStdLib module (filterStdLib module imports) = filterStdLib module imports.
Proof.
  apply map_eq. intros k. rewrite !filterStdLib_lookup.
  by destruct (survives (module ++ "/") k).
Qed.

(** X2.  The filter only removes entries: every entry of the result is an
    entry of the input, with the same alias. *)
Theorem filterStdLib_subseteq (module : string) (imports : gmap string string) :
  filterStdLib module imports ⊆ imports.
Proof.
  apply map_subseteq_spec. intros k alias. rewrite filterStdLib_lookup.
  by destruct (survives (module ++ "/") k).
Qed.

(** X3.  The result does not depend on the order in which the keys are
    visited: a loop over any list that holds every key of the mapping gives
    what [filterStdLib] gives. *)
Theorem filterStdLib_any_order (module : string) (imports : gmap string string)
    (keys : list string) :
  (forall k, is_Some (imports !! k) -> k ∈ keys) ->
  filterStdLib_range (module ++ "/") keys imports = filterStdLib module imports.
Proof.
  intros Hkeys. apply map_eq. intros k.
  rewrite filterStdLib_range_lookup, filterStdLib_lookup.
  case_decide as Hin; [done|].
  destruct (imports !! k) as [alias|] eqn:Hk.
  - exfalso. apply Hin, Hkeys. by rewrite Hk.
  - by destruct (survives (module ++ "/") k).
Qed.

Lemma filterStdLib_any_order_witness :
  filterStdLib_range ("example.com/mod" ++ "/")
    ["github.com/apache/thrift/lib/go/thrift"; "std/strings";
     "example.com/mod/gen"; "std/strings"; "not/a/key"]
    sample_imports
  = filterStdLib "example.com/mod" sample_imports.
Proof.
  apply (filterStdLib_any_order "example.com/mod" sample_imports).
  intros k [alias Hk]. unfold sample_imports in Hk.
  apply lookup_insert_Some in Hk as [[<- _]|[_ Hk]]; [set_solver|].
  apply lookup_insert_Some in Hk as [[<- _]|[_ Hk]]; [set_solver|].
  apply lookup_insert_Some in Hk as [[<- _]|[_ Hk]]; [set_solver|].
  by rewrite lookup_empty in Hk.
Defined.

(** ** Field reordering *)

Lemma classify_fields_classified {Scope : Type} (p : patcher Scope) fields m :
  snd (classify_fields (utils p) fields m) = None ->
  Forall (classified p) fields.
Proof.
  revert m. induction fields as [|f fields IH]; intros m; [by constructor|].
  cbn [classify_fields].
  destruct (IsFixedLengthType (utils p) (Field_Type f)) as [ok [e|]] eqn:Hf;
    [done|].
  intros Hrest. constructor; [|by eapply IH].
  unfold classified. by rewrite Hf.
Qed.

Lemma reorderStructFields_no_error {Scope : Type} (p : patcher Scope) fields :
  snd (reorderStructFields p fields) = None -> Forall (classified p) fields.
Proof.
  unfold reorderStructFields.
  destruct (classify_fields (utils p) fields ∅) as [m [e|]] eqn:Hrun; [done|].
  intros _. apply (classify_fields_classified p fields ∅). by rewrite Hrun.
Qed.

Lemma filter_partition_Permutation {A} (f : A -> bool) l :
  List.filter f l ++ List.filter (fun x => negb (f x)) l ≡ₚ l.
Proof.
  induction l as [|x l IH]; [done|]. cbn [List.filter].
  destruct (f x); cbn [negb app].
  - by constructor.
  - rewrite <- Permutation_middle. by constructor.
Qed.

(** X4.  A reordering without error is a permutation of the fields: none is
    lost and none is repeated. *)
Theorem reorderStructFields_Permutation {Scope : Type} (p : patcher Scope)
    (fields sortedFields : list Field) :
  reorderStructFields p fields = (sortedFields, None) ->
  sortedFields ≡ₚ fields.
Proof.
  intros Hrun.
  assert (Forall (classified p) fields) as Hall
    by (apply reorderStructFields_no_error; by rewrite Hrun).
  rewrite (reorderStructFields_ok p fields Hall) in Hrun.
  injection Hrun as <-. apply filter_partition_Permutation.
Qed.

Lemma reorderStructFields_Permutation_witness :
  [field_id; field_active; field_name] ≡ₚ [field_id; field_name; field_active].
Proof.
  apply (reorderStructFields_Permutation sample_patcher). by vm_compute.
Defined.

Lemma filter_all {A} (f : A -> bool) l :
  Forall (fun x => f x = true) l -> List.filter f l = l.
Proof.
  induction 1 as [|x l Hx _ IH]; [done|]. cbn [List.filter]. by rewrite Hx, IH.
Qed.

Lemma filter_none {A} (f : A -> bool) l :
  Forall (fun x => f x = false) l -> List.filter f l = [].
Proof.
  induction 1 as [|x l Hx _ IH]; [done|]. cbn [List.filter]. by rewrite Hx, IH.
Qed.

(** X5.  Fields that are already in the order fixed-width first,
    variable-width second are returned as they are; so are the empty record,
    a record of fixed-width fields and a record of variable-width fields. *)
Theorem reorderStructFields_partitioned {Scope : Type} (p : patcher Scope)
    (fixed variable : list Field) :
  Forall (fun f => IsFixedLengthType (utils p) (Field_Type f) = (true, None))
         fixed ->
  Forall (fun f => IsFixedLengthType (utils p) (Field_Type f) = (false, None))
         variable ->
  reorderStructFields p (fixed ++ variable) = (fixed ++ variable, None).
Proof.
  intros Hfixed Hvariable.
  rewrite reorderStructFields_ok.
  - rewrite !List.filter_app.
    rewrite (filter_all (fixed_width p) fixed),
      (filter_none (fixed_width p) variable),
      (filter_none (fun f => negb (fixed_width p f)) fixed),
      (filter_all (fun f => negb (fixed_width p f)) variable).
    + by rewrite !app_nil_r.
    + eapply Forall_impl; [exact Hvariable|].
      intros f Hf. unfold fixed_width. by rewrite Hf.
    + eapply Forall_impl; [exact Hfixed|].
      intros f Hf. unfold fixed_width. by rewrite Hf.
    + eapply Forall_impl; [exact Hvariable|].
      intros f Hf. unfold fixed_width. by rewrite Hf.
    + eapply Forall_impl; [exact Hfixed|].
      intros f Hf. unfold fixed_width. by rewrite Hf.
  - apply Forall_app. split.
    + eapply Forall_impl; [exact Hfixed|].
      intros f Hf. unfold classified. by rewrite Hf.
    + eapply Forall_impl; [exact Hvariable|].
      intros f Hf. unfold classified. by rewrite Hf.
Qed.

Lemma reorderStructFields_partitioned_witness :
  reorderStructFields sample_patcher ([field_id; field_active] ++ [field_name])
  = ([field_id; field_active] ++ [field_name], None).
Proof.
  apply (reorderStructFields_partitioned sample_patcher);
    repeat constructor.
Defined.

(** ** Envelope extraction *)

(** X6.  A Record is listed in [Requests] exactly when it is a Record of the
    document with a field whose normalized name is "base" and whose type name
    is "base.Base", and in [Responses] exactly when it has a field
    "baseResp" of type "base.BaseResp". *)
Theorem filterBase_elem {Scope : Type} (p : patcher Scope) (ast : Thrift)
    (s : StructLike) :
  (In s (Requests (filterBase p ast))
   <-> In s (GetStructLike ast)
       /\ exists f, In f (Fields s)
                    /\ fst (Unexport (utils p) (Field_Name f)) = "base"
                    /\ Type_Name (Field_Type f) = "base.Base")
  /\ (In s (Responses (filterBase p ast))
      <-> In s (GetStructLike ast)
          /\ exists f, In f (Fields s)
                       /\ fst (Unexport (utils p) (Field_Name f)) = "baseResp"
                       /\ Type_Name (Field_Type f) = "base.BaseResp").
Proof.
  rewrite filterBase_closed_form. cbn [Requests Responses].
  split; rewrite in_flat_map; split.
  - intros (s' & Hs' & Hin). apply in_flat_map in Hin as (f & Hf & Hin).
    case_decide as Hm; [|done]. destruct Hin as [<-|[]]. eauto.
  - intros (Hs & f & Hf & Hm). exists s. split; [done|].
    apply in_flat_map. exists f. split; [done|].
    rewrite decide_True by done. by left.
  - intros (s' & Hs' & Hin). apply in_flat_map in Hin as (f & Hf & Hin).
    case_decide as Hm; [|done]. destruct Hin as [<-|[]]. eauto.
  - intros (Hs & f & Hf & Hm). exists s. split; [done|].
    apply in_flat_map. exists f. split; [done|].
    rewrite decide_True by done. by left.
Qed.

(** ** Binary or string *)

(** X7.  When both predicates answer without error, [isBinaryOrStringType]
    answers their disjunction, without error. *)
Theorem isBinaryOrStringType_or {Scope : Type} (p : patcher Scope) (t : Type_)
    (isBinary isString : bool) :
  IsBinaryType (utils p) t = (isBinary, None) ->
  IsStringType (utils p) t = (isString, None) ->
  isBinaryOrStringType p t = (isBinary || isString, None).
Proof.
  intros Hb Hs. unfold isBinaryOrStringType. rewrite Hb.
  rewrite bool_decide_false by (intros H; by apply H).
  by destruct isBinary.
Qed.

Lemma isBinaryOrStringType_or_witness :
  isBinaryOrStringType sample_patcher (mkType "string") = (false || true, None).
Proof.
  apply (isBinaryOrStringType_or sample_patcher); reflexivity.
Defined.

(** ** Package names *)

Lemma string_leb_trans a b c :
  String.leb a b = true -> String.leb b c = true -> String.leb a c = true.
Proof.
  unfold String.leb. revert b c.
  induction a as [|x a IH]; intros [|y b] [|z c]; cbn [String.compare]; try done.
  unfold Ascii.compare.
  destruct (N.compare_spec (N_of_ascii x) (N_of_ascii y)) as [Hxy|Hxy|Hxy],
    (N.compare_spec (N_of_ascii y) (N_of_ascii z)) as [Hyz|Hyz|Hyz],
    (N.compare_spec (N_of_ascii x) (N_of_ascii z)) as [Hxz|Hxz|Hxz];
    try done; try lia.
  apply IH.
Qed.

#[global] Instance string_le_trans : Transitive string_le.
Proof. intros a b c. apply string_leb_trans. Qed.

#[global] Instance string_le_total : Total string_le.
Proof. intros a b. apply String.leb_total. Qed.

#[global] Instance string_le_antisymm : AntiSymm (=) string_le.
Proof. intros a b. apply String.leb_antisym. Qed.

Section PackageNames.

Variable ToLower : string -> string.

Lemma ToPackageNames_body_name res entry :
  ToPackageNames_body ToLower res entry = res ++ [package_name ToLower entry].
Proof.
  destruct entry as [pth alias]. unfold ToPackageNames_body, package_name.
  cbn [fst snd]. by destruct (String.eqb alias "").
Qed.

Lemma ToPackageNames_loop entries res :
  fold_left (ToPackageNames_body ToLower) entries res
  = res ++ map (package_name ToLower) entries.
Proof.
  revert res. induction entries as [|e entries IH]; intros res; cbn [fold_left map].
  - by rewrite app_nil_r.
  - by rewrite IH, ToPackageNames_body_name, <- app_assoc.
Qed.

(** X8.  [ToPackageNames] returns one name for every import, the alias when
    there is one and the lower-cased base of the path otherwise, in
    increasing order. *)
Theorem ToPackageNames_sorted (imports : gmap string string) :
  StronglySorted string_le (ToPackageNames ToLower imports)
  /\ ToPackageNames ToLower imports
     ≡ₚ map (package_name ToLower) (map_to_list imports)
  /\ length (ToPackageNames ToLower imports) = size imports.
Proof.
  unfold ToPackageNames, ToPackageNames_range, sort_Strings.
  rewrite ToPackageNames_loop. cbn [app].
  split; [apply StronglySorted_merge_sort; apply _|].
  split; [apply merge_sort_Permutation|].
  rewrite merge_sort_Permutation, length_map. apply length_map_to_list.
Qed.

End PackageNames.

(** X9.  The names do not depend on the order in which the entries of the
    mapping are visited. *)
Theorem ToPackageNames_any_order (ToLower : string -> string)
    (entries entries' : list (string * string)) :
  entries ≡ₚ entries' ->
  ToPackageNames_range ToLower entries = ToPackageNames_range ToLower entries'.
Proof.
  intros Hperm. unfold ToPackageNames_range, sort_Strings.
  rewrite !ToPackageNames_loop. cbn [app].
  apply (StronglySorted_unique string_le).
  - apply StronglySorted_merge_sort; apply _.
  - apply StronglySorted_merge_sort; apply _.
  - rewrite !merge_sort_Permutation. by apply Permutation_map.
Qed.

Lemma ToPackageNames_any_order_witness :
  ToPackageNames_range sample_ToLower
    [("std/Strings", ""); ("example.com/mod/gen", "gen"); ("a/b/Thrift", "")]
  = ToPackageNames_range sample_ToLower
      [("a/b/Thrift", ""); ("std/Strings", ""); ("example.com/mod/gen", "gen")].
Proof.
  apply (ToPackageNames_any_order sample_ToLower).
  apply Permutation_sym.
  apply (Permutation_cons_append
           [("std/Strings", ""); ("example.com/mod/gen", "gen")]
           ("a/b/Thrift", "")).
Defined.

Example ToPackageNames_sample :
  ToPackageNames sample_ToLower
    (<["std/Strings" := ""]> (<["example.com/mod/gen" := "gen"]>
       (<["github.com/apache/thrift/lib/go/Thrift" := ""]> ∅)))
  = ["gen"; "strings"; "thrift"].
Proof. by vm_compute. Qed.

(** ** Runs of the generation loop *)

Section Runs.
Import filepath.

Context {Scope : Type}.
Variable ReadFile : string -> string * option error.
Variable p : patcher Scope.
Variable req : Request.

Lemma patch_document_no_error st ast :
  snd (patch_document ReadFile p req st ast) = None
  <-> document_ok ReadFile p ast.
Proof.
  rewrite patch_document_protect. unfold or_return, document_ok.
  destruct (snd (BuildScope (utils p) ast)) as [e1|];
    [split; [done | by intros (? & _)]|].
  destruct (snd (GetFilePath (utils p) ast)) as [e2|];
    [split; [done | by intros (_ & ? & _)]|].
  cbv zeta.
  destruct (snd (ResolveImports (utils p) (fst (BuildScope (utils p) ast))))
    as [e3|]; [split; [done | by intros (_ & _ & ? & _)]|].
  destruct (snd (fileTpl p _)) as [e4|];
    [split; [done | by intros (_ & _ & _ & ? & _)]|].
  destruct (copyIDL p); [|by split].
  destruct (snd (ReadFile (Filename ast))) as [e5|].
  - split; [done|]. intros (_ & _ & _ & _ & H5). by specialize (H5 eq_refl).
  - by split.
Qed.

(** What a document that raises no error does to the loop state. *)
Lemma patch_document_ok st ast :
  document_ok ReadFile p ast ->
  patch_document ReadFile p req st ast
  = ({| patches :=
          patches (protect st (document_dir p req ast) (document_package p ast))
          ++ document_units ReadFile p req ast;
        protection :=
          protection (protect st (document_dir p req ast)
                        (document_package p ast)) |},
     None).
Proof.
  intros (H1 & H2 & H3 & H4 & H5).
  rewrite patch_document_protect. unfold or_return.
  rewrite H1, H2. cbv zeta. rewrite H3, H4.
  unfold document_units, document_data, document_dir, document_package,
    append_patch.
  destruct (copyIDL p).
  - rewrite (H5 eq_refl). cbn [patches protection]. by rewrite <- app_assoc.
  - done.
Qed.

Lemma protect_registry st seen d pkgName :
  registry_of st seen ->
  patches (protect st (Clean d) pkgName)
  = patches st ++ (if bool_decide (Clean d ∈ seen) then []
                   else [protection_unit (Clean d) pkgName])
  /\ registry_of (protect st (Clean d) pkgName) (Clean d :: seen).
Proof.
  intros Hreg. unfold protect.
  destruct (protection st !! Join [Clean d; "k-consts.go"]) as [g|] eqn:Hd.
  - assert (In (Clean d) seen) as Hin by (apply Hreg; by rewrite Hd).
    rewrite bool_decide_true by by apply list_elem_of_In.
    split; [by rewrite app_nil_r|].
    intros d'. pose proof (Hreg d') as Hd'. cbn [In]. split.
    + intros Hsome. right. by apply Hd'.
    + intros [<-|Hseen]; [by rewrite Hd | by apply Hd'].
  - assert (~ In (Clean d) seen) as Hin.
    { intros Hin. apply Hreg in Hin. rewrite Hd in Hin. by destruct Hin. }
    rewrite bool_decide_false by by rewrite list_elem_of_In.
    split; [done|].
    intros d'. cbn [protection In]. rewrite lookup_insert. case_decide as Hc.
    + apply consts_path_inj in Hc. split; [by left | by eexists].
    + pose proof (Hreg d') as Hd'. split.
      * intros Hsome. right. by apply Hd'.
      * intros [Heq|Hseen]; [by rewrite Heq in Hc | by apply Hd'].
Qed.

(** A run in which no document raises an error appends the planned units. *)
Lemma patch_range_planned docs st seen :
  registry_of st seen ->
  Forall (document_ok ReadFile p) docs ->
  exists st',
    patch_range ReadFile p req docs st = (st', None)
    /\ patches st' = patches st ++ planned ReadFile p req seen docs.
Proof.
  revert st seen. induction docs as [|ast docs IH]; intros st seen Hreg Hok.
  - exists st. split; [done|]. cbn [planned]. by rewrite app_nil_r.
  - apply Forall_cons in Hok as [Hast Hok].
    cbn [patch_range planned]. rewrite (patch_document_ok st ast Hast).
    destruct (protect_registry st seen
                (fst (Split (Join [OutputPath req; fst (GetFilePath (utils p) ast)])))
                (document_package p ast) Hreg) as [Hpatches Hreg'].
    change (Clean (fst (Split (Join [OutputPath req; fst (GetFilePath (utils p) ast)]))))
      with (document_dir p req ast) in *.
    set (st1 := {| patches := _; protection := _ |}).
    destruct (IH st1 (document_dir p req ast :: seen)) as (st' & Hrun & Hst');
      [| exact Hok |].
    { intros d. apply Hreg'. }
    exists st'. split; [exact Hrun|].
    rewrite Hst'. subst st1. cbn [patches]. rewrite Hpatches.
    by rewrite <- !app_assoc.
Qed.

Lemma patch_range_no_error docs st :
  snd (patch_range ReadFile p req docs st) = None
  <-> Forall (document_ok ReadFile p) docs.
Proof.
  revert st. induction docs as [|ast docs IH]; intros st; cbn [patch_range].
  - split; [by constructor | done].
  - pose proof (patch_document_no_error st ast) as Hdoc.
    destruct (patch_document ReadFile p req st ast) as [st1 [e|]]; cbn [snd] in *.
    + split; [done|]. intros [Hast _]%Forall_cons. by apply Hdoc in Hast.
    + rewrite IH. split.
      * intros Hok. constructor; [by apply Hdoc | done].
      * by intros [_ Hok]%Forall_cons.
Qed.

Lemma registry_of_init : registry_of {| patches := []; protection := ∅ |} [].
Proof.
  intros d. cbn [protection In]. rewrite lookup_empty. split; [|done].
  by intros [? ?].
Qed.

Lemma patch_run_planned :
  snd (patch_run ReadFile p req) = None ->
  patches (fst (patch_run ReadFile p req))
  = planned ReadFile p req [] (DepthFirstSearch req).
Proof.
  unfold patch_run. intros Hok%patch_range_no_error.
  destruct (patch_range_planned _ _ [] registry_of_init Hok) as (st' & Hrun & Hst').
  rewrite Hrun. cbn [fst]. by rewrite Hst'.
Qed.

Lemma patch_no_error_run :
  snd (patch ReadFile p req) = snd (patch_run ReadFile p req).
Proof.
  unfold patch. by destruct (patch_run ReadFile p req) as [st [e|]].
Qed.

Lemma patch_no_error_Forall :
  snd (patch ReadFile p req) = None
  <-> Forall (document_ok ReadFile p) (DepthFirstSearch req).
Proof.
  rewrite patch_no_error_run. unfold patch_run. apply patch_range_no_error.
Qed.

Lemma patch_planned :
  snd (patch ReadFile p req) = None ->
  fst (patch ReadFile p req)
  = map snd (planned ReadFile p req [] (DepthFirstSearch req)).
Proof.
  intros Hok. rewrite patch_no_error_run in Hok.
  rewrite <- (patch_run_planned Hok).
  unfold patch. destruct (patch_run ReadFile p req) as [st e].
  cbn [snd] in Hok. by subst e.
Qed.

(** X10.  [patch] returns no error exactly when every call it makes for
    every document returns no error: building the scope, computing the file
    path, resolving the imports, executing the template and, with [copyIDL],
    reading the source. *)
Theorem patch_no_error_iff :
  snd (patch ReadFile p req) = None
  <-> Forall (document_ok ReadFile p) (DepthFirstSearch req).
Proof. apply patch_no_error_Forall. Qed.

End Runs.

Section PlannedUnits.
Import filepath.

Context {Scope : Type}.
Variable ReadFile : string -> string * option error.
Variable p : patcher Scope.
Variable req : Request.

Lemma document_units_length ast :
  length (document_units ReadFile p req ast) = if copyIDL p then 2 else 1.
Proof. unfold document_units. by destruct (copyIDL p). Qed.

Lemma document_units_not_protection ast :
  List.filter (fun u => negb (is_protection u)) (document_units ReadFile p req ast)
  = document_units ReadFile p req ast.
Proof. unfold document_units. by destruct (copyIDL p). Qed.

Lemma difference_union_seen (d : string) (dirs before : gset string) :
  d ∈ before -> ({[d]} ∪ dirs) ∖ before = dirs ∖ ({[d]} ∪ before).
Proof.
  intros Hd. apply set_eq. intros x.
  rewrite !elem_of_difference, !elem_of_union, !elem_of_singleton.
  split.
  - intros [[->|Hx] Hn]; [destruct (Hn Hd)|].
    split; [exact Hx|]. intros [->|Hb]; [exact (Hn Hd) | exact (Hn Hb)].
  - intros [Hx Hn]. split; [by right|]. intros Hb. apply Hn. by right.
Qed.

Lemma difference_union_new (d : string) (dirs before : gset string) :
  d ∉ before ->
  ({[d]} ∪ dirs) ∖ before = {[d]} ∪ dirs ∖ ({[d]} ∪ before)
  /\ ({[d]} : gset string) ## dirs ∖ ({[d]} ∪ before).
Proof.
  intros Hd. split.
  - apply set_eq. intros x.
    rewrite elem_of_difference, !elem_of_union, elem_of_difference,
      elem_of_union, !elem_of_singleton.
    destruct (decide (x = d)) as [->|Hne]; split.
    + by left.
    + intros _. split; [by left | exact Hd].
    + intros [[Hx|Hx] Hn]; [done|]. right. split; [exact Hx|].
      intros [Heq|Hb]; [done | exact (Hn Hb)].
    + intros [Hx|[Hx Hn]]; [done|]. split; [by right|].
      intros Hb. apply Hn. by right.
  - intros x. rewrite elem_of_difference, elem_of_union, !elem_of_singleton.
    intros -> [_ Hn]. apply Hn. by left.
Qed.

Lemma planned_length seen docs :
  length (planned ReadFile p req seen docs)
  = length docs * (if copyIDL p then 2 else 1)
    + size (list_to_set (map (document_dir p req) docs) ∖ list_to_set seen
            : gset string).
Proof.
  revert seen. induction docs as [|ast docs IH]; intros seen.
  - cbn [planned map length list_to_set].
    assert ((∅ : gset string) ∖ list_to_set seen = ∅) as ->.
    { apply set_eq. intros x. rewrite elem_of_difference, elem_of_empty.
      split; [by intros [[] _] | by intros []]. }
    by rewrite size_empty.
  - cbn [planned map length list_to_set].
    rewrite !length_app, document_units_length, IH. cbn [list_to_set].
    destruct (bool_decide_reflect (document_dir p req ast ∈ seen)) as [Hd|Hd].
    + rewrite difference_union_seen by (by apply elem_of_list_to_set).
      cbn [length]. lia.
    + destruct (difference_union_new (document_dir p req ast)
                  (list_to_set (map (document_dir p req) docs))
                  (list_to_set seen)) as [-> Hdisj].
      { by rewrite elem_of_list_to_set. }
      rewrite (size_union _ _ Hdisj), size_singleton. cbn [length]. lia.
Qed.

Lemma planned_not_protection seen docs :
  List.filter (fun u => negb (is_protection u)) (planned ReadFile p req seen docs)
  = flat_map (document_units ReadFile p req) docs.
Proof.
  revert seen. induction docs as [|ast docs IH]; intros seen; [done|].
  cbn [planned flat_map].
  rewrite !List.filter_app, document_units_not_protection, IH.
  by destruct (bool_decide (document_dir p req ast ∈ seen)).
Qed.

Lemma planned_first seen pre ast post :
  ~ In (document_dir p req ast) seen ->
  Forall (fun a => document_dir p req a <> document_dir p req ast) pre ->
  In (protection_unit (document_dir p req ast) (document_package p ast))
     (planned ReadFile p req seen (pre ++ ast :: post)).
Proof.
  revert seen. induction pre as [|a pre IH]; intros seen Hseen Hpre.
  - cbn [app planned].
    rewrite bool_decide_false by by rewrite list_elem_of_In.
    by left.
  - apply Forall_cons in Hpre as [Ha Hpre]. cbn [app planned].
    apply in_or_app. right. apply in_or_app. right.
    apply IH; [|done]. by intros [?|?].
Qed.

(** X11.  A run without error returns one unit for every document, two with
    [copyIDL], and one more for every distinct output directory. *)
Theorem patch_length :
  snd (patch ReadFile p req) = None ->
  length (fst (patch ReadFile p req))
  = length (DepthFirstSearch req) * (if copyIDL p then 2 else 1)
    + size (list_to_set (map (document_dir p req) (DepthFirstSearch req))
            : gset string).
Proof.
  intros Hok. rewrite (patch_planned ReadFile p req Hok).
  rewrite length_map, planned_length. cbn [list_to_set].
  f_equal. f_equal. apply set_eq. intros x.
  rewrite elem_of_difference, elem_of_empty.
  split; [by intros [Hx _] | intros Hx; split; [exact Hx | by intros []]].
Qed.

(** X12.  In a run without error the units other than the protection units
    are, document after document in the order of the traversal, the file
    rendered from the document's data, whose imports are the filtered ones,
    under the target path, followed with [copyIDL] by the copy of the
    source. *)
Theorem patch_document_units :
  snd (patch ReadFile p req) = None ->
  fst (patch ReadFile p req)
    = map snd (patches (fst (patch_run ReadFile p req)))
  /\ List.filter (fun u => negb (is_protection u))
                 (patches (fst (patch_run ReadFile p req)))
     = flat_map (document_units ReadFile p req) (DepthFirstSearch req).
Proof.
  intros Hok. rewrite (patch_planned ReadFile p req Hok).
  rewrite patch_no_error_run in Hok.
  by rewrite (patch_run_planned ReadFile p req Hok), planned_not_protection.
Qed.

(** X13.  In a run without error the protection unit of a directory carries
    the package name of the first document of the traversal that is mapped to
    the directory. *)
Theorem patch_protection_package (pre post : list Thrift) (ast : Thrift) :
  DepthFirstSearch req = pre ++ ast :: post ->
  Forall (fun a => document_dir p req a <> document_dir p req ast) pre ->
  snd (patch ReadFile p req) = None ->
  In (protection_unit (document_dir p req ast) (document_package p ast))
     (patches (fst (patch_run ReadFile p req))).
Proof.
  intros Hdocs Hpre Hok. rewrite patch_no_error_run in Hok.
  rewrite (patch_run_planned ReadFile p req Hok), Hdocs.
  apply planned_first; [by intros [] | exact Hpre].
Qed.

End PlannedUnits.

Lemma patch_length_witness :
  length (fst (patch sample_source sample_copy_patcher sample_request))
  = length (DepthFirstSearch sample_request)
      * (if copyIDL sample_copy_patcher then 2 else 1)
    + size (list_to_set (map (document_dir sample_copy_patcher sample_request)
                             (DepthFirstSearch sample_request))
            : gset string).
Proof.
  apply (patch_length sample_source sample_copy_patcher sample_request).
  by vm_compute.
Defined.

Example patch_with_copy :
  map Name (fst (patch sample_source sample_copy_patcher sample_request))
  = ["/out/pkg/k-consts.go"; "/out/pkg/k-a.go"; "/out/pkg/a.thrift";
     "/out/pkg/k-b.go"; "/out/pkg/b.thrift"].
Proof. by vm_compute. Qed.

Lemma patch_document_units_witness :
  fst (patch sample_source sample_copy_patcher sample_request)
    = map snd (patches (fst (patch_run sample_source sample_copy_patcher
                               sample_request)))
  /\ List.filter (fun u => negb (is_protection u))
       (patches (fst (patch_run sample_source sample_copy_patcher sample_request)))
     = flat_map (document_units sample_source sample_copy_patcher sample_request)
                (DepthFirstSearch sample_request).
Proof.
  apply (patch_document_units sample_source sample_copy_patcher sample_request).
  by vm_compute.
Defined.

Lemma patch_protection_package_witness :
  In (protection_unit (document_dir sample_patcher sample_request doc_a)
        (document_package sample_patcher doc_a))
     (patches (fst (patch_run sample_ReadFile sample_patcher sample_request))).
Proof.
  apply (patch_protection_package sample_ReadFile sample_patcher sample_request
           [] [doc_b] doc_a).
  - reflexivity.
  - constructor.
  - by vm_compute.
Defined.

Section RunsCompose.
Import filepath.

Context {Scope : Type}.
Variable ReadFile : string -> string * option error.
Variable p : patcher Scope.

(** The loop reads the output path of the request and nothing else of it. *)
Lemma patch_range_OutputPath req req' docs st :
  OutputPath req = OutputPath req' ->
  patch_range ReadFile p req docs st = patch_range ReadFile p req' docs st.
Proof.
  destruct req as [d out], req' as [d' out']. cbn [OutputPath]. intros <-.
  revert st. induction docs as [|ast docs IH]; intros st; [done|].
  cbn [patch_range].
  change (patch_document ReadFile p (mkRequest d out) st ast)
    with (patch_document ReadFile p (mkRequest d' out) st ast).
  destruct (patch_document ReadFile p _ st ast) as [st1 [e|]]; [done | apply IH].
Qed.

Lemma patch_range_app req docs more st :
  patch_range ReadFile p req (docs ++ more) st
  = match patch_range ReadFile p req docs st with
    | (st', None) => patch_range ReadFile p req more st'
    | (st', Some err) => (st', Some err)
    end.
Proof.
  revert st. induction docs as [|ast docs IH]; intros st; [done|].
  cbn [app patch_range].
  destruct (patch_document ReadFile p req st ast) as [st1 [e|]]; [done | apply IH].
Qed.

(** X14.  Once a document has raised an error the run is over: documents that
    come later in the traversal change nothing of what [patch] returns. *)
Theorem patch_stops_at_error (req : Request) (more : list Thrift) (err : error) :
  snd (patch ReadFile p req) = Some err ->
  patch ReadFile p (mkRequest (DepthFirstSearch req ++ more) (OutputPath req))
  = patch ReadFile p req.
Proof.
  unfold patch, patch_run. cbn [DepthFirstSearch].
  rewrite (patch_range_OutputPath
             (mkRequest (DepthFirstSearch req ++ more) (OutputPath req)) req)
    by done.
  rewrite patch_range_app.
  destruct (patch_range ReadFile p req (DepthFirstSearch req) _) as [st [e|]];
    [done|]. by cbn [snd].
Qed.

Lemma planned_app req seen docs more :
  planned ReadFile p req seen (docs ++ more)
  = planned ReadFile p req seen docs
    ++ planned ReadFile p req (rev (map (document_dir p req) docs) ++ seen) more.
Proof.
  revert seen. induction docs as [|ast docs IH]; intros seen.
  - cbn [app planned map rev]. done.
  - cbn [app planned map rev]. rewrite IH, <- !app_assoc. done.
Qed.

Lemma planned_OutputPath req req' seen docs :
  OutputPath req = OutputPath req' ->
  planned ReadFile p req seen docs = planned ReadFile p req' seen docs.
Proof.
  destruct req as [d out], req' as [d' out']. cbn [OutputPath]. by intros <-.
Qed.

(** X15.  A run without error over a traversal returns, first, what the run
    over any initial part of the traversal returns. *)
Theorem patch_prefix (out : string) (docs more : list Thrift) :
  snd (patch ReadFile p (mkRequest (docs ++ more) out)) = None ->
  snd (patch ReadFile p (mkRequest docs out)) = None
  /\ exists l,
       fst (patch ReadFile p (mkRequest (docs ++ more) out))
       = fst (patch ReadFile p (mkRequest docs out)) ++ l.
Proof.
  intros Hok.
  pose proof Hok as Hall. apply patch_no_error_Forall in Hall.
  cbn [DepthFirstSearch] in Hall. apply Forall_app in Hall as [Hdocs _].
  assert (snd (patch ReadFile p (mkRequest docs out)) = None) as Hok'
    by by apply patch_no_error_Forall.
  split; [exact Hok'|].
  rewrite (patch_planned ReadFile p _ Hok), (patch_planned ReadFile p _ Hok').
  cbn [DepthFirstSearch]. rewrite planned_app, map_app.
  rewrite (planned_OutputPath (mkRequest (docs ++ more) out) (mkRequest docs out))
    by done.
  eauto.
Qed.

End RunsCompose.

Lemma patch_stops_at_error_witness :
  patch sample_ReadFile sample_patcher
    (mkRequest (DepthFirstSearch (mkRequest [doc_a; doc_unknown] "/out")
                  ++ [doc_b; doc_consts])
               (OutputPath (mkRequest [doc_a; doc_unknown] "/out")))
  = patch sample_ReadFile sample_patcher (mkRequest [doc_a; doc_unknown] "/out").
Proof.
  apply (patch_stops_at_error sample_ReadFile sample_patcher
           (mkRequest [doc_a; doc_unknown] "/out") [doc_b; doc_consts]
           (ExternalError "no file path")).
  by vm_compute.
Defined.

Lemma patch_prefix_witness :
  snd (patch sample_source sample_copy_patcher (mkRequest [doc_a] "/out")) = None
  /\ exists l,
       fst (patch sample_source sample_copy_patcher
              (mkRequest ([doc_a] ++ [doc_b]) "/out"))
       = fst (patch sample_source sample_copy_patcher (mkRequest [doc_a] "/out"))
         ++ l.
Proof.
  apply (patch_prefix sample_source sample_copy_patcher "/out" [doc_a] [doc_b]).
  by vm_compute.
Defined.

Section RunsErrors.

Context {Scope : Type}.
Variable p : patcher Scope.
Variable req : Request.

Lemma patch_document_ReadFile (ReadFile ReadFile' : string -> string * option error)
    st ast :
  copyIDL p = false ->
  patch_document ReadFile p req st ast = patch_document ReadFile' p req st ast.
Proof.
  intros Hcopy. rewrite !patch_document_protect. unfold or_return.
  destruct (snd (BuildScope (utils p) ast)); [done|].
  destruct (snd (GetFilePath (utils p) ast)); [done|].
  cbv zeta.
  destruct (snd (ResolveImports (utils p) (fst (BuildScope (utils p) ast))));
    [done|].
  destruct (snd (fileTpl p _)); [done|].
  by rewrite Hcopy.
Qed.

(** X16.  Without [copyIDL] the sources are not read: whatever reading a file
    would return, [patch] returns the same. *)
Theorem patch_without_copyIDL
    (ReadFile ReadFile' : string -> string * option error) :
  copyIDL p = false ->
  patch ReadFile p req = patch ReadFile' p req.
Proof.
  intros Hcopy. unfold patch, patch_run.
  assert (forall docs st,
             patch_range ReadFile p req docs st
             = patch_range ReadFile' p req docs st) as ->; [|done].
  induction docs as [|ast docs IH]; intros st; [done|].
  cbn [patch_range]. rewrite (patch_document_ReadFile ReadFile ReadFile') by done.
  destruct (patch_document ReadFile' p req st ast) as [st1 [e|]]; [done | apply IH].
Qed.

Variable ReadFile : string -> string * option error.

Lemma patch_range_first_error docs st st' err :
  patch_range ReadFile p req docs st = (st', Some err) ->
  exists pre ast post,
    docs = pre ++ ast :: post
    /\ Forall (document_ok ReadFile p) pre
    /\ ~ document_ok ReadFile p ast
    /\ (quoted_arg err = Some (Filename ast)
        \/ (snd (BuildScope (utils p) ast) = None
            /\ snd (GetFilePath (utils p) ast) = Some err)).
Proof.
  revert st. induction docs as [|ast docs IH]; intros st; cbn [patch_range]; [done|].
  destruct (patch_document ReadFile p req st ast) as [st1 [e|]] eqn:Hdoc.
  - intros [= _ <-]. exists [], ast, docs. split; [done|]. split; [by constructor|].
    split; [|by eapply patch_document_error].
    intros Hok%(patch_document_no_error ReadFile p req st). by rewrite Hdoc in Hok.
  - intros Hrange. destruct (IH _ Hrange) as (pre & a & post & -> & Hpre & Ha & Herr).
    exists (ast :: pre), a, post. split; [done|]. split; [|done].
    constructor; [|done].
    apply (patch_document_no_error ReadFile p req st). by rewrite Hdoc.
Qed.

(** X17.  An error of [patch] comes with the nil list and from the first
    document of the traversal for which a call fails; it is wrapped with the
    filename of that document, unless it is the error [GetFilePath] returned
    for it, which is passed on as it is. *)
Theorem patch_first_error (err : error) :
  snd (patch ReadFile p req) = Some err ->
  fst (patch ReadFile p req) = []
  /\ exists pre ast post,
       DepthFirstSearch req = pre ++ ast :: post
       /\ Forall (document_ok ReadFile p) pre
       /\ ~ document_ok ReadFile p ast
       /\ (quoted_arg err = Some (Filename ast)
           \/ (snd (BuildScope (utils p) ast) = None
               /\ snd (GetFilePath (utils p) ast) = Some err)).
Proof.
  unfold patch, patch_run.
  destruct (patch_range ReadFile p req (DepthFirstSearch req) _) as [st [e|]] eqn:Hrun;
    cbn [fst snd]; [|done].
  intros [= ->]. split; [done|]. by eapply patch_range_first_error.
Qed.

End RunsErrors.

Lemma patch_without_copyIDL_witness :
  patch sample_ReadFile sample_patcher sample_request
  = patch sample_source sample_patcher sample_request.
Proof.
  apply (patch_without_copyIDL sample_patcher sample_request). reflexivity.
Defined.

Lemma patch_first_error_witness :
  fst (patch sample_ReadFile sample_patcher (mkRequest [doc_a; doc_nopkg; doc_b] "/out"))
    = []
  /\ exists pre ast post,
       [doc_a; doc_nopkg; doc_b] = pre ++ ast :: post
       /\ Forall (document_ok sample_ReadFile sample_patcher) pre
       /\ ~ document_ok sample_ReadFile sample_patcher ast
       /\ (quoted_arg (Errorf "%q: %w" "b.thrift"
                         (ExternalError "template: no package name"))
             = Some (Filename ast)
           \/ (snd (BuildScope (utils sample_patcher) ast) = None
               /\ snd (GetFilePath (utils sample_patcher) ast)
                  = Some (Errorf "%q: %w" "b.thrift"
                            (ExternalError "template: no package name")))).
Proof.
  apply (patch_first_error sample_patcher
           (mkRequest [doc_a; doc_nopkg; doc_b] "/out") sample_ReadFile).
  by vm_compute.
Defined.

(** ** Where the generated files go *)

Section GeneratedPaths.
Import filepath.

Lemma string_app_assoc (a b c : string) : (a +:+ b) +:+ c = a +:+ (b +:+ c).
Proof.
  induction a as [|x a IH]; [done|].
  change ((String x a +:+ b) +:+ c) with (String x ((a +:+ b) +:+ c)).
  change (String x a +:+ (b +:+ c)) with (String x (a +:+ (b +:+ c))).
  by rewrite IH.
Qed.

Lemma string_app_nil_r (a : string) : a +:+ "" = a.
Proof.
  induction a as [|x a IH]; [done|].
  change (String x a +:+ "") with (String x (a +:+ "")). by rewrite IH.
Qed.

Lemma Split_no_slash x : elements x = [x] -> Split x = ("", x).
Proof.
  induction x as [|c x IH]; [done|]. rewrite elements_String. cbn [Split].
  destruct (isSlash c) eqn:Hc.
  - intros [=].
  - destruct (elements_cons x) as (e & es & He). rewrite He.
    intros [= -> ->]. by rewrite (IH He).
Qed.

Lemma Split_app_slash a x :
  elements x = [x] -> Split (a +:+ "/" +:+ x) = (a +:+ "/", x).
Proof.
  intros Hx. induction a as [|c a IH].
  - change ("" +:+ "/" +:+ x) with (String "/" x). cbn [Split].
    by rewrite (Split_no_slash x Hx).
  - change (String c a +:+ "/" +:+ x) with (String c (a +:+ "/" +:+ x)).
    cbn [Split]. rewrite IH.
    change (String c a +:+ "/") with (String c (a +:+ "/")).
    destruct (a +:+ "/") as [|c' rest] eqn:Ha; [|done].
    destruct a; discriminate Ha.
Qed.

Lemma strings_Join_snoc l x :
  l <> [] -> strings.Join (l ++ [x]) "/" = strings.Join l "/" +:+ "/" +:+ x.
Proof.
  induction l as [|e l IH]; [done|]. intros _.
  destruct l as [|e' l]; [done|].
  change (strings.Join ((e :: e' :: l) ++ [x]) "/")
    with (e +:+ "/" +:+ strings.Join ((e' :: l) ++ [x]) "/").
  change (strings.Join (e :: e' :: l) "/")
    with (e +:+ "/" +:+ strings.Join (e' :: l) "/").
  rewrite IH by done. by rewrite !string_app_assoc.
Qed.

Lemma render_snoc r e out x :
  render r (x :: e :: out) = render r (e :: out) +:+ "/" +:+ x.
Proof.
  rewrite !render_cons by done. cbn [rev].
  rewrite strings_Join_snoc.
  - by rewrite string_app_assoc.
  - destruct (rev_cons_not_nil e out) as (y & l' & Hrev). cbn [rev] in Hrev.
    by rewrite Hrev.
Qed.

Lemma rooted_app a b : a <> "" -> rooted (a +:+ b) = rooted a.
Proof. by destruct a. Qed.

Lemma render_not_empty r out : normal r out -> render r out <> "".
Proof.
  intros Hout. destruct out as [|e out]; [by destruct r|].
  rewrite render_cons by done. destruct r; [done|].
  change ("" +:+ ?s) with s.
  apply normal_without_slash, Forall_rev in Hout.
  destruct (rev (e :: out)) as [|y l] eqn:Hrev.
  { destruct (rev_cons_not_nil e out) as (? & ? & Hrev'). congruence. }
  apply Forall_cons in Hout as [[_ Hy] _].
  destruct y as [|c y]; [done|]. by destruct l.
Qed.

Lemma Clean_not_empty path : Clean path <> "".
Proof. rewrite Clean_render. apply render_not_empty, kept_normal. Qed.

Lemma Clean_trailing_slash path : path <> "" -> Clean (path +:+ "/") = Clean path.
Proof.
  intros Hne. rewrite (Clean_render (path +:+ "/")), (Clean_render path).
  rewrite rooted_app by done. f_equal. unfold kept.
  rewrite rooted_app by done.
  rewrite <- (string_app_nil_r (path +:+ "/")), string_app_assoc.
  rewrite elements_app_slash, fold_left_app. done.
Qed.

(** The directory and the base name of [Join(d, x)] for a regular name. *)
Lemma Join_regular_Split d x :
  regular x ->
  snd (Split (Join [d; x])) = x /\ Dir (Join [d; x]) = Clean d.
Proof.
  intros Hx. pose proof Hx as (Hel & _).
  rewrite Join_regular by done. unfold Dir. rewrite (Clean_render d).
  destruct (kept d) as [|e out] eqn:Hkept.
  - unfold render. cbn [rev app]. destruct (rooted d).
    + change ("/" ++ strings.Join [x] "/")%string with ("" +:+ "/" +:+ x).
      by rewrite Split_app_slash.
    + change ("" ++ strings.Join [x] "/")%string with x.
      by rewrite Split_no_slash.
  - rewrite render_snoc, Split_app_slash by done. cbn [fst snd].
    split; [done|].
    assert (normal (rooted d) (e :: out)) as Hn
      by (rewrite <- Hkept; apply kept_normal).
    rewrite Clean_trailing_slash by by apply render_not_empty.
    rewrite Clean_render, rooted_render, kept_render by done. done.
Qed.

(** X18.  The file of a document and the protection file are both written to
    the output directory of the document; the base name of the first is the
    base name the path resolver gave, prefixed with "k-", and the base name
    of the second is "k-consts.go". *)
Theorem generated_paths (req : Request) (path : string) :
  Dir (target_path req path) = Dir (Join [OutputPath req; path])
  /\ snd (Split (target_path req path))
     = "k-" +:+ snd (Split (Join [OutputPath req; path]))
  /\ Dir (consts_path req path) = Dir (Join [OutputPath req; path])
  /\ snd (Split (consts_path req path)) = "k-consts.go".
Proof.
  unfold target_path, consts_path.
  set (full := Join [OutputPath req; path]).
  pose proof (Split_file full) as Hbase.
  assert (Dir full = Clean (fst (Split full))) as HDir by reflexivity.
  destruct (Split full) as [dir base]. cbn [fst snd] in *.
  destruct (Join_regular_Split dir ("k-" +:+ base)) as [Htb Htd];
    [by apply regular_k_prefix|].
  destruct (Join_regular_Split (Dir full) "k-consts.go") as [Hcb Hcd];
    [apply regular_k_consts|].
  split; [by rewrite Htd, HDir|]. split; [exact Htb|].
  split; [|exact Hcb]. rewrite Hcd, HDir. apply Clean_idempotent.
Qed.

End GeneratedPaths.

(** ** The type-name table *)

Lemma TypeIDToGoType_unknown (t : string) :
  ~ In t ["Bool"; "Byte"; "I16"; "I32"; "I64"; "Double"; "String"; "Binary"] ->
  TypeIDToGoType t = "".
Proof.
  intros Hnot. unfold TypeIDToGoType, map_index, typeIDToGoType.
  cbn [In] in Hnot.
  rewrite !lookup_insert_ne by (intros <-; tauto).
  by rewrite lookup_empty.
Qed.

Lemma TypeIDToGoType_known_dec (t : string) :
  In t ["Bool"; "Byte"; "I16"; "I32"; "I64"; "Double"; "String"; "Binary"]
  \/ TypeIDToGoType t = "".
Proof.
  destruct (In_dec String.string_dec t
              ["Bool"; "Byte"; "I16"; "I32"; "I64"; "Double"; "String"; "Binary"])
    as [Hin|Hnot]; [by left|]. right. by apply TypeIDToGoType_unknown.
Qed.

(** X19.  Two type IDs with the same Go name, when that name is not empty,
    are the same type ID: the table gives every type ID a name of its own. *)
Theorem TypeIDToGoType_inj (t1 t2 : string) :
  TypeIDToGoType t1 <> "" ->
  TypeIDToGoType t1 = TypeIDToGoType t2 ->
  t1 = t2.
Proof.
  intros Hne Heq.
  destruct (TypeIDToGoType_known_dec t1) as [H1|H1]; [|done].
  destruct (TypeIDToGoType_known_dec t2) as [H2|H2]; [|by rewrite <- Heq in H2].
  cbn [In] in H1, H2.
  repeat (destruct H1 as [<-|H1]); try done;
    repeat (destruct H2 as [<-|H2]); try done;
    by vm_compute in Heq.
Qed.

Lemma TypeIDToGoType_inj_witness : "I16" = "I16".
Proof.
  apply (TypeIDToGoType_inj "I16" "I16"); by vm_compute.
Defined.
